(** * Augmented Random Search for BipedalWalker: model and properties

    A shallow embedding of [bipedal_walker.ipynb]: the hyperparameter record
    [Hp], the running [Normalizer], the linear [Policy] and the trainer
    [ArsAgent] with its [explore] rollout and its [train] loop.

    Numbers. The notebook computes on IEEE doubles through numpy.  The model
    keeps the arithmetic exact: a number is a rational, or one of the three
    special values numpy produces when a quotient has a zero divisor
    ([inf], [-inf], [nan]).  Rounding, overflow to [inf], underflow to 0
    and signed zeros are not modelled: a statement that says
    "in exact arithmetic" is about this idealisation, the others do not
    depend on it.

    Counts ([num_steps], [episode_length], [num_deltas], [num_best_deltas])
    are natural numbers; negative Python integers are not modelled.

    Arrays. A vector is a list, a matrix a list of rows.  numpy raises on
    operands whose shapes do not conform; the element-wise operations below
    stop at the shorter operand instead, and the statements about arrays
    carry the shape conditions under which both agree. *)

From Stdlib Require Import QArith Qabs Qminmax Lqa Lia List Bool Arith ZArith String.
From Stdlib Require Import Sorted Permutation Setoid Morphisms.
Import ListNotations.
Open Scope Q_scope.

(* ================================================================== *)
(** ** Numbers *)

Inductive num : Type :=
| Fin (q : Q)
| PInf
| NInf
| NaN.

Definition Qltb (a b : Q) : bool := negb (Qle_bool b a).

(** The infinity (or nan) carrying the sign given by a comparison with 0. *)
Definition inf_of (c : comparison) : num :=
  match c with Gt => PInf | Lt => NInf | Eq => NaN end.

Definition sign (x : num) : comparison :=
  match x with
  | Fin q => q ?= 0
  | PInf => Gt
  | NInf => Lt
  | NaN => Eq
  end.

Definition sign_mul (a b : comparison) : comparison :=
  match a, b with
  | Eq, _ | _, Eq => Eq
  | Gt, c | c, Gt => c
  | Lt, Lt => Gt
  end.

Definition fneg (x : num) : num :=
  match x with
  | Fin q => Fin (- q)
  | PInf => NInf
  | NInf => PInf
  | NaN => NaN
  end.

Definition fadd (x y : num) : num :=
  match x, y with
  | NaN, _ | _, NaN => NaN
  | Fin a, Fin b => Fin (a + b)
  | PInf, NInf | NInf, PInf => NaN
  | PInf, _ | _, PInf => PInf
  | NInf, _ | _, NInf => NInf
  end.

Definition fsub (x y : num) : num := fadd x (fneg y).

Definition fmul (x y : num) : num :=
  match x, y with
  | NaN, _ | _, NaN => NaN
  | Fin a, Fin b => Fin (a * b)
  | _, _ => inf_of (sign_mul (sign x) (sign y))
  end.

(** IEEE division: a finite number over zero is an infinity of the sign of
    the numerator, and [0 / 0] is [nan]; numpy warns and goes on. *)
Definition fdiv (x y : num) : num :=
  match x, y with
  | NaN, _ | _, NaN => NaN
  | Fin a, Fin b => if Qeq_bool b 0 then inf_of (a ?= 0) else Fin (a / b)
  | Fin _, _ => Fin 0
  | _, Fin b => inf_of (sign_mul (sign x) (if Qltb b 0 then Lt else Gt))
  | _, _ => NaN
  end.

Definition fabs (x : num) : num :=
  match x with
  | Fin q => Fin (Qabs q)
  | PInf | NInf => PInf
  | NaN => NaN
  end.

(** [x < y] as Python and numpy decide it: false as soon as one side is nan. *)
Definition fltb (x y : num) : bool :=
  match x, y with
  | NaN, _ | _, NaN => false
  | Fin a, Fin b => Qltb a b
  | NInf, NInf | PInf, PInf => false
  | NInf, _ | _, PInf => true
  | _, _ => false
  end.

(** Python's built-in [min(a, b)] and [max(a, b)]: the first argument is kept
    unless the second is strictly better. *)
Definition py_min (a b : num) : num := if fltb b a then b else a.
Definition py_max (a b : num) : num := if fltb a b then b else a.

(** [ndarray.clip(min=lo)], one entry. *)
Definition clip_min (lo x : num) : num := if fltb x lo then lo else x.

(** [np.sqrt], one entry, over a square root [sqrtQ] on the rationals. *)
Definition fsqrt (sqrtQ : Q -> Q) (x : num) : num :=
  match x with
  | Fin q => if Qltb q 0 then NaN else Fin (sqrtQ q)
  | PInf => PInf
  | NInf | NaN => NaN
  end.

(** A computable square root on the rationals, exact on the squares of
    rationals (in particular [0] and [1/100]) and rounded down to the grid of
    the denominator elsewhere.  It instantiates [sqrtQ] in the closed
    examples; the general statements hold for every [sqrtQ]. *)
Definition Qsqrt_grid (q : Q) : Q :=
  Z.sqrt (Qnum q * Z.pos (Qden q)) # Qden q.

Definition of_nat (k : nat) : num := Fin (inject_Z (Z.of_nat k)).

(** Same value: equal rationals, or the same special value. *)
Definition feq (x y : num) : Prop :=
  match x, y with
  | Fin a, Fin b => a == b
  | PInf, PInf | NInf, NInf | NaN, NaN => True
  | _, _ => False
  end.

Definition feqb (x y : num) : bool :=
  match x, y with
  | Fin a, Fin b => Qeq_bool a b
  | PInf, PInf | NInf, NInf | NaN, NaN => true
  | _, _ => false
  end.

(** [lo <= x], true only of comparable values. *)
Definition fle (x y : num) : Prop :=
  match x, y with
  | NaN, _ | _, NaN => False
  | Fin a, Fin b => a <= b
  | NInf, _ | _, PInf => True
  | _, _ => False
  end.

Definition is_finite (x : num) : Prop :=
  match x with Fin _ => True | _ => False end.

(* ================================================================== *)
(** ** Arrays *)

Definition vec := list num.
Definition matrix := list (list num).

Fixpoint zipWith {A B C : Type} (f : A -> B -> C) (l : list A) (m : list B) : list C :=
  match l, m with
  | a :: l', b :: m' => f a b :: zipWith f l' m'
  | _, _ => []
  end.

Definition vadd : vec -> vec -> vec := zipWith fadd.
Definition vsub : vec -> vec -> vec := zipWith fsub.
Definition vmul : vec -> vec -> vec := zipWith fmul.
Definition vdiv : vec -> vec -> vec := zipWith fdiv.

Definition fsum (l : list num) : num := fold_left fadd l (Fin 0).

Definition np_zeros (k : nat) : vec := repeat (Fin 0) k.
Definition np_zeros2 (shape : nat * nat) : matrix :=
  repeat (np_zeros (snd shape)) (fst shape).

Definition shape (m : matrix) : nat * nat :=
  (List.length m, match m with r :: _ => List.length r | [] => O end).

Definition mat_add : matrix -> matrix -> matrix := zipWith vadd.
Definition mat_sub : matrix -> matrix -> matrix := zipWith vsub.
(** scalar * matrix *)
Definition mat_scale (c : num) (m : matrix) : matrix := map (map (fmul c)) m.
(** [m.dot(x)] *)
Definition dot (row x : vec) : num := fsum (vmul row x).
Definition mat_vec (m : matrix) (x : vec) : vec := map (fun row => dot row x) m.

Definition np_mean (l : list num) : num := fdiv (fsum l) (of_nat (List.length l)).

(** [ndarray.std()]: the population standard deviation,
    [sqrt(mean(abs(x - x.mean())**2))]. *)
Definition np_std (sqrtQ : Q -> Q) (l : list num) : num :=
  let m := np_mean l in
  fsqrt sqrtQ (np_mean (map (fun x => let d := fabs (fsub x m) in fmul d d) l)).

Definition vec_feq : vec -> vec -> Prop := Forall2 feq.
Definition mat_feq : matrix -> matrix -> Prop := Forall2 vec_feq.

Definition vec_feqb (a b : vec) : bool :=
  (List.length a =? List.length b)%nat && forallb (fun p => feqb (fst p) (snd p)) (combine a b).
Definition mat_feqb (a b : matrix) : bool :=
  (List.length a =? List.length b)%nat && forallb (fun p => vec_feqb (fst p) (snd p)) (combine a b).

(** List assignment [l[k] = v] for an index in range. *)
Fixpoint list_set {A : Type} (k : nat) (v : A) (l : list A) : list A :=
  match l, k with
  | [], _ => []
  | _ :: l', O => v :: l'
  | a :: l', S k' => a :: list_set k' v l'
  end.

(* ================================================================== *)
(** ** The random stream

    [np.random.randn(r, c)] draws [r * c] standard normal samples from the
    global generator, row by row.  The stream of samples is a function of
    the draw number; the generator state is the number of draws made. *)

Record RandomState : Type := {
  sample : nat -> Q;
  cursor : nat
}.

Definition randn (rs : RandomState) (sh : nat * nat) : matrix * RandomState :=
  let '(r, c) := sh in
  (map (fun i => map (fun j => Fin (sample rs (cursor rs + i * c + j))) (seq 0 c)) (seq 0 r),
   {| sample := sample rs; cursor := cursor rs + r * c |}).

(* ================================================================== *)
(** ** Hyperparameters *)

Module Hp.

Record t : Type := {
  num_steps : nat;
  episode_length : nat;
  num_deltas : nat;
  num_best_deltas : nat;
  record_every : nat;
  env_name : string;
  seed : nat;
  noise : num;
  alpha : num
}.

(** [Hp.__init__]: the assertion [num_best_deltas <= num_deltas] is the only
    validation. *)
Definition init (num_steps episode_length num_deltas num_best_deltas record_every : nat)
    (env_name : string) (seed : nat) (noise alpha : num) : option t :=
  if (num_best_deltas <=? num_deltas)%nat then
    Some {| num_steps := num_steps; episode_length := episode_length;
            num_deltas := num_deltas; num_best_deltas := num_best_deltas;
            record_every := record_every; env_name := env_name; seed := seed;
            noise := noise; alpha := alpha |}
  else None.

Definition set_episode_length (h : t) (l : nat) : t :=
  {| num_steps := num_steps h; episode_length := l;
     num_deltas := num_deltas h; num_best_deltas := num_best_deltas h;
     record_every := record_every h; env_name := env_name h; seed := seed h;
     noise := noise h; alpha := alpha h |}.

End Hp.

(* ================================================================== *)
(** ** Normalizer *)

Module Normalizer.

Record t : Type := {
  n : vec;
  mean : vec;
  mean_diff : vec;
  variance : vec
}.

Definition init (num_inputs : nat) : t :=
  {| n := np_zeros num_inputs;
     mean := np_zeros num_inputs;
     mean_diff := np_zeros num_inputs;
     variance := np_zeros num_inputs |}.

(** The floor [1e-2] of [observe]. *)
Definition epsilon : num := Fin (1 # 100).

Definition observe (s : t) (x : vec) : t :=
  let n' := map (fun a => fadd a (Fin 1)) (n s) in
  let last_mean := mean s in
  let mean' := vadd (mean s) (vdiv (vsub x (mean s)) n') in
  let mean_diff' := vadd (mean_diff s) (vmul (vsub x last_mean) (vsub x mean')) in
  {| n := n';
     mean := mean';
     mean_diff := mean_diff';
     variance := map (clip_min epsilon) (vdiv mean_diff' n') |}.

Definition normalize (sqrtQ : Q -> Q) (s : t) (inputs : vec) : vec :=
  let obs_mean := mean s in
  let obs_std := map (fsqrt sqrtQ) (variance s) in
  vdiv (vsub inputs obs_mean) obs_std.

(** The normalizer after a sequence of [observe] calls. *)
Definition observe_all (s : t) (xs : list vec) : t := fold_left observe xs s.

End Normalizer.

(* ================================================================== *)
(** ** Policy *)

Inductive Direction : Type := Plus | Minus.

Module Policy.

Record t : Type := {
  theta : matrix;
  hp : Hp.t
}.

Definition init (input_size output_size : nat) (h : Hp.t) : t :=
  {| theta := np_zeros2 (output_size, input_size); hp := h |}.

(** [evaluate(input, delta, direction)].  [direction] is [None], ['+'] or
    ['-']; [delta] is read only when a direction is given. *)
Definition evaluate (p : t) (input : vec) (delta : matrix) (direction : option Direction) : vec :=
  match direction with
  | None => mat_vec (theta p) input
  | Some Plus => mat_vec (mat_add (theta p) (mat_scale (Hp.noise (hp p)) delta)) input
  | Some Minus => mat_vec (mat_sub (theta p) (mat_scale (Hp.noise (hp p)) delta)) input
  end.

Fixpoint sample_n (k : nat) (sh : nat * nat) (rs : RandomState) : list matrix * RandomState :=
  match k with
  | O => ([], rs)
  | S k' =>
      let '(d, rs1) := randn rs sh in
      let '(ds, rs2) := sample_n k' sh rs1 in
      (d :: ds, rs2)
  end.

Definition sample_deltas (p : t) (rs : RandomState) : list matrix * RandomState :=
  sample_n (Hp.num_deltas (hp p)) (shape (theta p)) rs.

(** The accumulation loop of [update]. *)
Definition update_step (rollouts : list (num * num * matrix)) (sh : nat * nat) : matrix :=
  fold_left (fun step '(r_pos, r_neg, delta) =>
               mat_add step (mat_scale (fsub r_pos r_neg) delta))
            rollouts (np_zeros2 sh).

Definition update (p : t) (rollouts : list (num * num * matrix)) (sigma_rewards : num) : t :=
  let step := update_step rollouts (shape (theta p)) in
  let coef := fdiv (Hp.alpha (hp p))
                   (fmul (of_nat (Hp.num_best_deltas (hp p))) sigma_rewards) in
  {| theta := mat_add (theta p) (mat_scale coef step); hp := hp p |}.

End Policy.

(* ================================================================== *)
(** ** The environment collaborator *)

Class Environment (E : Type) : Type := {
  env_reset : E -> E * vec;
  env_step : E -> vec -> E * vec * num * bool;
  (** [env.spec.timestep_limit]: [None] or an integer *)
  timestep_limit : E -> option nat;
  observation_dim : E -> nat;
  action_dim : E -> nat
}.

(** Python's [a or b] on an optional integer: [b] when [a] is [None] or 0. *)
Definition or_nat (a : option nat) (b : nat) : nat :=
  match a with
  | Some (S k) => S k
  | _ => b
  end.

(* ================================================================== *)
(** ** Agent trainer *)

(** [sorted(keys, key=..., reverse=True)]: Python's sort is stable, also
    with [reverse=True]; elements with equal keys keep their order.  The
    model is the stable insertion sort; it agrees with Python on keys
    without nan (with nan keys Python's result depends on its merge order). *)
Fixpoint insert_desc (key : nat -> num) (x : nat) (l : list nat) : list nat :=
  match l with
  | [] => [x]
  | y :: l' => if fltb (key x) (key y) then y :: insert_desc key x l' else x :: y :: l'
  end.

Definition sorted_reverse (key : nat -> num) (l : list nat) : list nat :=
  fold_right (insert_desc key) [] l.

Module ArsAgent.

Section WithEnvironment.

Context {E : Type} `{Environment E}.
Variable sqrtQ : Q -> Q.

Record t : Type := {
  hp : Hp.t;
  env : E;
  input_size : nat;
  output_size : nat;
  normalizer : Normalizer.t;
  policy : Policy.t
}.

(** [ArsAgent.__init__] on the environment [gym.make] returned.  The video
    monitor and its flag are left out, and so are the failures of
    [np.random.seed] and [gym.make] and the case [hp=None]; a policy that is
    passed in keeps the hyperparameters it was built with. *)
Definition init (h : Hp.t) (e : E) (input_size output_size : option nat)
    (normalizer : option Normalizer.t) (policy : option Policy.t) : t :=
  let h' := Hp.set_episode_length h (or_nat (timestep_limit e) (Hp.episode_length h)) in
  let isz := or_nat input_size (observation_dim e) in
  let osz := or_nat output_size (action_dim e) in
  {| hp := h';
     env := e;
     input_size := isz;
     output_size := osz;
     normalizer := match normalizer with Some nz => nz | None => Normalizer.init isz end;
     policy := match policy with Some p => p | None => Policy.init isz osz h' end |}.

(** What a rollout leaves behind: the environment and the normalizer it
    mutated, the returned [sum_rewards], the final [num_plays], and (for the
    statements only) the rewards the environment returned, in order. *)
Record Rollout : Type := {
  r_env : E;
  r_normalizer : Normalizer.t;
  sum_rewards : num;
  num_plays : nat;
  raw_rewards : list num
}.

(** The [while] loop of [explore].  [remaining] is
    [episode_length - num_plays]: the loop test [num_plays < episode_length]
    holds exactly when it is not 0. *)
Fixpoint explore_loop (p : Policy.t) (direction : option Direction) (delta : matrix)
    (remaining : nat) (e : E) (nz : Normalizer.t) (state : vec) (done : bool)
    (plays : nat) (total : num) (seen : list num) : Rollout :=
  match remaining with
  | O => {| r_env := e; r_normalizer := nz; sum_rewards := total;
            num_plays := plays; raw_rewards := seen |}
  | S remaining' =>
      if done then
        {| r_env := e; r_normalizer := nz; sum_rewards := total;
           num_plays := plays; raw_rewards := seen |}
      else
        let nz1 := Normalizer.observe nz state in
        let state1 := Normalizer.normalize sqrtQ nz1 state in
        let action := Policy.evaluate p state1 delta direction in
        let '(e', state2, reward, done') := env_step e action in
        let reward' := py_max (py_min reward (Fin 1)) (Fin (-1)) in
        explore_loop p direction delta remaining' e' nz1 state2 done'
                     (S plays) (fadd total reward') (seen ++ [reward])
  end.

Definition explore_run (a : t) (direction : option Direction) (delta : matrix) : Rollout :=
  let '(e0, state) := env_reset (env a) in
  explore_loop (policy a) direction delta (Hp.episode_length (hp a))
               e0 (normalizer a) state false O (Fin 0) [].

Definition after_rollout (a : t) (r : Rollout) : t :=
  {| hp := hp a; env := r_env r; input_size := input_size a;
     output_size := output_size a; normalizer := r_normalizer r;
     policy := policy a |}.

(** [explore(direction, delta)]: the agent after the rollout and the
    returned sum of rewards. *)
Definition explore (a : t) (direction : option Direction) (delta : matrix) : t * num :=
  let r := explore_run a direction delta in
  (after_rollout a r, sum_rewards r).

(** The paired rollouts of one iteration, [for k in range(num_deltas)].
    [deltas] holds [num_deltas] matrices when it comes from [sample_deltas],
    so that [deltas[k]] is always in range. *)
Definition collect (a : t) (deltas : list matrix) : t * list num * list num :=
  let nd := Hp.num_deltas (hp a) in
  fold_left
    (fun '(a0, pos_rewards, neg_rewards) k =>
       let '(a1, rp) := explore a0 (Some Plus) (nth k deltas []) in
       let '(a2, rn) := explore a1 (Some Minus) (nth k deltas []) in
       (a2, list_set k rp pos_rewards, list_set k rn neg_rewards))
    (seq 0 nd)
    (a, repeat (Fin 0) nd, repeat (Fin 0) nd).

(** [scores]: a dict from the index [k] to [max(r_pos, r_neg)], as the list
    of its values in key order. *)
Definition scores (pos_rewards neg_rewards : list num) : list num :=
  zipWith py_max pos_rewards neg_rewards.

Definition order (h : Hp.t) (pos_rewards neg_rewards : list num) : list nat :=
  let sc := scores pos_rewards neg_rewards in
  firstn (Hp.num_best_deltas h)
         (sorted_reverse (fun k => nth k sc NaN) (seq 0 (List.length sc))).

Definition rollouts (h : Hp.t) (pos_rewards neg_rewards : list num)
    (deltas : list matrix) : list (num * num * matrix) :=
  map (fun k => (nth k pos_rewards NaN, nth k neg_rewards NaN, nth k deltas []))
      (order h pos_rewards neg_rewards).

Definition sigma_of (pos_rewards neg_rewards : list num) : num :=
  np_std sqrtQ (pos_rewards ++ neg_rewards).

(** Lines 203-209 of [train]: from the rewards of the iteration to the
    updated policy. *)
Definition update_policy (a : t) (pos_rewards neg_rewards : list num)
    (deltas : list matrix) : Policy.t :=
  Policy.update (policy a)
                (rollouts (hp a) pos_rewards neg_rewards deltas)
                (sigma_of pos_rewards neg_rewards).

Definition set_policy (a : t) (p : Policy.t) : t :=
  {| hp := hp a; env := env a; input_size := input_size a;
     output_size := output_size a; normalizer := normalizer a; policy := p |}.

(** One iteration of the loop of [train]; [history] is [REWARD_HISTORY].
    The [record_video] flag and the printed line are left out. *)
Definition train_step (st : t * RandomState * list num) : t * RandomState * list num :=
  let '(a, rs, history) := st in
  let '(deltas, rs1) := Policy.sample_deltas (policy a) rs in
  let '(a1, pos_rewards, neg_rewards) := collect a deltas in
  let a2 := set_policy a1 (update_policy a1 pos_rewards neg_rewards deltas) in
  let '(a3, reward_evaluation) := explore a2 None [] in
  (a3, rs1, history ++ [reward_evaluation]).


End WithEnvironment.

End ArsAgent.

(* ================================================================== *)
(** ** A stub environment

    Every step returns the same observation and the same reward; the episode
    is over after [stub_done_after] steps when that is given, and never
    otherwise. *)

Record Stub : Type := {
  stub_obs : vec;
  stub_reward : Q;
  stub_done_after : option nat;
  stub_limit : option nat;
  stub_actions : nat;
  stub_steps : nat
}.

Definition stub_set_steps (s : Stub) (k : nat) : Stub :=
  {| stub_obs := stub_obs s; stub_reward := stub_reward s;
     stub_done_after := stub_done_after s; stub_limit := stub_limit s;
     stub_actions := stub_actions s; stub_steps := k |}.

#[global] Instance Stub_Environment : Environment Stub := {
  env_reset s := (stub_set_steps s O, stub_obs s);
  env_step s _ :=
    let k := S (stub_steps s) in
    (stub_set_steps s k, stub_obs s, Fin (stub_reward s),
     match stub_done_after s with
     | Some m => (m <=? k)%nat
     | None => false
     end);
  timestep_limit := stub_limit;
  observation_dim s := List.length (stub_obs s);
  action_dim := stub_actions
}.

(** Hyperparameters of the examples. *)
Definition example_hp : Hp.t :=
  {| Hp.num_steps := 1; Hp.episode_length := 3; Hp.num_deltas := 2;
     Hp.num_best_deltas := 1; Hp.record_every := 100;
     Hp.env_name := "stub"; Hp.seed := 42;
     Hp.noise := Fin (3 # 100); Hp.alpha := Fin (2 # 100) |}.

(* ================================================================== *)
(** ** Vocabulary of the statements *)

(** Finite data: rationals seen as numbers. *)
Definition lift (x : list Q) : vec := map Fin x.
Definition lift2 (m : list (list Q)) : matrix := map lift m.

Definition Qsum (l : list Q) : Q := fold_right Qplus 0 l.

(** The [i]-th coordinates of a sequence of observation vectors. *)
Definition column (i : nat) (xs : list (list Q)) : list Q :=
  map (fun x => nth i x 0) xs.

(** The arithmetic mean of [xs], coordinate by coordinate. *)
Definition arithmetic_mean (d : nat) (xs : list (list Q)) : vec :=
  map (fun i => Fin (Qsum (column i xs) / inject_Z (Z.of_nat (List.length xs)))) (seq 0 d).

(** Clamping to [[-1, 1]], on the rationals. *)
Definition Qclamp (r : Q) : Q := Qmax (Qmin r 1) (-1).

(** The ranking the selection of [train] is meant to realise: [i] comes
    before [j] when its score is larger, or equal with [i] the earlier
    index. *)
Definition ranks_before (score : nat -> Q) (i j : nat) : Prop :=
  score j < score i \/ (score i == score j /\ (i < j)%nat).

(** On the indices of [l] the sort key is the finite score. *)
Definition has_finite_keys (score : nat -> Q) (key : nat -> num) (l : list nat) : Prop :=
  forall k, In k l -> exists q, key k = Fin q /\ q == score k.

(** The score of the delta of index [k]: [max(r_pos, r_neg)]. *)
Definition best_of_pair (pos neg : list Q) (k : nat) : Q :=
  Qmax (nth k pos 0) (nth k neg 0).

(** An environment whose rewards are finite numbers. *)
Definition finite_rewards (E : Type) `{Environment E} : Prop :=
  forall (e : E) (action : vec), is_finite (snd (fst (env_step e action))).

(** A stub that returns the reward 5: one step, then three. *)
Definition stub_five (steps : nat) : Stub :=
  {| stub_obs := [Fin 0]; stub_reward := 5; stub_done_after := Some steps;
     stub_limit := None; stub_actions := 1; stub_steps := 0 |}.

(** A stub that never ends an episode and exposes the step limit 2. *)
Definition stub_limit_two : Stub :=
  {| stub_obs := [Fin 0]; stub_reward := 1; stub_done_after := None;
     stub_limit := Some 2%nat; stub_actions := 1; stub_steps := 0 |}.

(** A stub whose reward is always 0 and whose episodes end after 1 step. *)
Definition stub_zero : Stub :=
  {| stub_obs := [Fin 0]; stub_reward := 0; stub_done_after := Some 1%nat;
     stub_limit := None; stub_actions := 1; stub_steps := 0 |}.


(** Hyperparameters with [episode_length = 1]. *)
Definition short_hp : Hp.t := Hp.set_episode_length example_hp 1.

(** A random stream for the examples. *)
Definition example_stream : RandomState :=
  {| sample := fun k => inject_Z (Z.of_nat k) - 1; cursor := 0 |}.

(** The entry-wise sum [Σ (r_pos - r_neg) * delta] of a list of rollouts
    with finite entries. *)
Definition step_entry (rs : list (Q * Q * list (list Q))) (i j : nat) : Q :=
  Qsum (map (fun '(r_pos, r_neg, delta) => (r_pos - r_neg) * nth j (nth i delta []) 0) rs).

Definition lift_rollouts (rs : list (Q * Q * list (list Q))) : list (num * num * matrix) :=
  map (fun '(r_pos, r_neg, delta) => (Fin r_pos, Fin r_neg, lift2 delta)) rs.

(** A matrix of the given shape. *)
Definition has_shape {A : Type} (r c : nat) (m : list (list A)) : Prop :=
  List.length m = r /\ Forall (fun row => List.length row = c) m.

(** The normalizer [s] holds the running statistics of the observations
    [xs], all of dimension [d]: the count, the mean (as [mean * n = sum]),
    finite squared deviations, and a floored variance once something has
    been observed. *)
Definition tracks (d : nat) (xs : list (list Q)) (s : Normalizer.t) : Prop :=
  (List.length (Normalizer.n s) = d /\ List.length (Normalizer.mean s) = d /\
   List.length (Normalizer.mean_diff s) = d /\ List.length (Normalizer.variance s) = d) /\
  forall i, (i < d)%nat ->
    exists nq m md v,
      nth i (Normalizer.n s) NaN = Fin nq /\
      nq == inject_Z (Z.of_nat (List.length xs)) /\
      nth i (Normalizer.mean s) NaN = Fin m /\
      m * nq == Qsum (column i xs) /\
      nth i (Normalizer.mean_diff s) NaN = Fin md /\
      nth i (Normalizer.variance s) NaN = Fin v /\
      (xs <> [] -> (1 # 100) <= v).

(** The sum of the squared deviations of [ys] from [m]. *)
Definition sum_sq_dev (ys : list Q) (m : Q) : Q :=
  Qsum (map (fun y => (y - m) * (y - m)) ys).

(** The arithmetic mean of a list of rationals. *)
Definition Qmean (ys : list Q) : Q :=
  Qsum ys / inject_Z (Z.of_nat (List.length ys)).

(** The dot product on the rationals, accumulated from the left. *)
Definition Qdot (a x : list Q) : Q := fold_left Qplus (zipWith Qmult a x) 0.

(** Welford's invariant at coordinate [i]: count, mean, and the squared
    deviations as [sum of squares - mean * sum]. *)
Definition welford (d : nat) (xs : list (list Q)) (s : Normalizer.t) : Prop :=
  (List.length (Normalizer.n s) = d /\ List.length (Normalizer.mean s) = d /\
   List.length (Normalizer.mean_diff s) = d /\ List.length (Normalizer.variance s) = d) /\
  forall i, (i < d)%nat ->
    exists nq m md v,
      nth i (Normalizer.n s) NaN = Fin nq /\
      nq == inject_Z (Z.of_nat (List.length xs)) /\
      nth i (Normalizer.mean s) NaN = Fin m /\
      m * nq == Qsum (column i xs) /\
      nth i (Normalizer.mean_diff s) NaN = Fin md /\
      md == Qsum (map (fun y => y * y) (column i xs)) - m * Qsum (column i xs) /\
      nth i (Normalizer.variance s) NaN = Fin v /\
      (xs <> [] -> v == Qmax (md / nq) (1 # 100)).

(** An environment that never ends an episode, and one that ends every
    episode at the first step. *)
Definition never_done (E : Type) `{Environment E} : Prop :=
  forall (e : E) (action : vec), snd (env_step e action) = false.
Definition always_done (E : Type) `{Environment E} : Prop :=
  forall (e : E) (action : vec), snd (env_step e action) = true.

(** A one-state environment whose every step returns the observation
    [[0]], the reward 1 and the flag [done = b]. *)
Inductive Constant (b : bool) : Type := constant_env.

#[global] Instance Constant_Environment (b : bool) : Environment (Constant b) := {
  env_reset e := (e, [Fin 0]);
  env_step e _ := (e, [Fin 0], Fin 1, b);
  timestep_limit _ := None;
  observation_dim _ := 1%nat;
  action_dim _ := 1%nat
}.



(** A one-state environment that never ends an episode and whose every
    step returns the observation [[0]] and the reward [rw], which may be
    any number, infinite or nan. *)
Inductive Bandit (rw : num) : Type := bandit_env.

#[global] Instance Bandit_Environment (rw : num) : Environment (Bandit rw) := {
  env_reset e := (e, [Fin 0]);
  env_step e _ := (e, [Fin 0], rw, false);
  timestep_limit _ := None;
  observation_dim _ := 1%nat;
  action_dim _ := 1%nat
}.

(** The rewards [env.step] returns during a rollout: from the environment
    state [e] and the observation [state], the environment is stepped with
    the action the policy computes from the normalized observation, until it
    signals done or [remaining] steps have been played. *)
Fixpoint step_rewards {E : Type} `{Environment E} (sqrtQ : Q -> Q) (p : Policy.t)
    (direction : option Direction) (delta : matrix) (remaining : nat) (e : E)
    (nz : Normalizer.t) (state : vec) (done : bool) : list num :=
  match remaining with
  | O => []
  | S remaining' =>
      if done then []
      else
        let nz1 := Normalizer.observe nz state in
        let action :=
          Policy.evaluate p (Normalizer.normalize sqrtQ nz1 state) delta direction in
        let '(e', state2, reward, done') := env_step e action in
        reward :: step_rewards sqrtQ p direction delta remaining' e' nz1 state2 done'
  end.

(* ================================================================== *)
(** ** Lists and element-wise operations *)

Lemma length_zipWith {A B C : Type} (f : A -> B -> C) (l : list A) (m : list B) :
  List.length (zipWith f l m) = Nat.min (List.length l) (List.length m).
Proof.
  revert m; induction l as [|a l IH]; intros [|b m]; simpl; auto.
Qed.

Lemma nth_zipWith {A B C : Type} (f : A -> B -> C) (da : A) (db : B) (dc : C) :
  forall (l : list A) (m : list B) (i : nat),
    (i < List.length l)%nat -> (i < List.length m)%nat ->
    nth i (zipWith f l m) dc = f (nth i l da) (nth i m db).
Proof.
  induction l as [|a l IH]; intros [|b m] i Hl Hm; simpl in *; try lia.
  destruct i as [|i]; [reflexivity|]. apply IH; lia.
Qed.

Lemma nth_map_in {A B : Type} (f : A -> B) (da : A) (db : B) :
  forall (l : list A) (i : nat),
    (i < List.length l)%nat -> nth i (map f l) db = f (nth i l da).
Proof.
  induction l as [|a l IH]; intros i Hi; simpl in *; [lia|].
  destruct i as [|i]; [reflexivity|]. apply IH; lia.
Qed.

Lemma Forall2_of_nth {A B : Type} (R : A -> B -> Prop) (da : A) (db : B) :
  forall (l : list A) (m : list B),
    List.length l = List.length m ->
    (forall i, (i < List.length l)%nat -> R (nth i l da) (nth i m db)) ->
    Forall2 R l m.
Proof.
  induction l as [|a l IH]; intros [|b m] Hlen Hnth; simpl in *; try discriminate.
  - constructor.
  - constructor.
    + apply (Hnth O); lia.
    + apply IH; [lia|]. intros i Hi. apply (Hnth (S i)); lia.
Qed.

Lemma nth_repeat_in {A : Type} (a da : A) (k i : nat) :
  (i < k)%nat -> nth i (repeat a k) da = a.
Proof.
  revert i; induction k as [|k IH]; intros i Hi; [lia|].
  destruct i as [|i]; simpl; [reflexivity|]. apply IH; lia.
Qed.

(* ================================================================== *)
(** ** Arithmetic on finite numbers *)

Lemma fdiv_Fin (a b : Q) : ~ b == 0 -> fdiv (Fin a) (Fin b) = Fin (a / b).
Proof.
  intro Hb. unfold fdiv.
  destruct (Qeq_bool b 0) eqn:E; [|reflexivity].
  apply Qeq_bool_iff in E. contradiction.
Qed.

Lemma fdiv_Fin_zero (a b : Q) : b == 0 -> fdiv (Fin a) (Fin b) = inf_of (a ?= 0).
Proof.
  intro Hb. unfold fdiv.
  destruct (Qeq_bool b 0) eqn:E; [reflexivity|].
  apply Qeq_bool_neq in E. contradiction.
Qed.

Lemma Qltb_true (a b : Q) : Qltb a b = true <-> a < b.
Proof.
  unfold Qltb. rewrite negb_true_iff. split.
  - intro E. apply Qnot_le_lt. intro Hle. apply Qle_bool_iff in Hle. congruence.
  - intro Hlt. destruct (Qle_bool b a) eqn:E; [|reflexivity].
    apply Qle_bool_iff in E. apply Qle_not_lt in E. contradiction.
Qed.

Lemma Qltb_false (a b : Q) : Qltb a b = false <-> b <= a.
Proof.
  unfold Qltb. rewrite negb_false_iff. apply Qle_bool_iff.
Qed.

Lemma clip_min_floor (v : Q) :
  exists w, clip_min Normalizer.epsilon (Fin v) = Fin w /\ (1 # 100) <= w.
Proof.
  unfold clip_min, Normalizer.epsilon; simpl.
  destruct (Qltb v (1 # 100)) eqn:E.
  - exists (1 # 100). split; [reflexivity|apply Qle_refl].
  - exists v. split; [reflexivity|]. now apply Qltb_false.
Qed.

Lemma inject_nat_succ (k : nat) :
  inject_Z (Z.of_nat (S k)) == inject_Z (Z.of_nat k) + 1.
Proof.
  rewrite Nat2Z.inj_succ. unfold Z.succ. rewrite inject_Z_plus. reflexivity.
Qed.

Lemma inject_nat_nonneg (k : nat) : 0 <= inject_Z (Z.of_nat k).
Proof.
  change 0 with (inject_Z 0). rewrite <- Zle_Qle. lia.
Qed.

Lemma Qsum_snoc (l : list Q) (y : Q) : Qsum (l ++ [y]) == Qsum l + y.
Proof.
  induction l as [|a l IH]; simpl.
  - ring.
  - rewrite IH. ring.
Qed.

(* ================================================================== *)
(** ** The normalizer tracks what it observed *)

Lemma tracks_init (d : nat) : tracks d [] (Normalizer.init d).
Proof.
  split.
  - unfold Normalizer.init, np_zeros; simpl. now rewrite repeat_length.
  - intros i Hi. exists 0, 0, 0, 0.
    unfold Normalizer.init, np_zeros; simpl.
    rewrite !nth_repeat_in by assumption.
    repeat split; try reflexivity. intro Hne; now elim Hne.
Qed.

Ltac in_range :=
  unfold lift, vadd, vdiv, vsub, vmul;
  repeat (rewrite length_zipWith || rewrite length_map); lia.

Lemma tracks_observe (d : nat) (xs : list (list Q)) (s : Normalizer.t) (x : list Q) :
  tracks d xs s -> List.length x = d ->
  tracks d (xs ++ [x]) (Normalizer.observe s (lift x)).
Proof.
  intros [(Ln & Lm & Ld & Lv) Hi] Lx. split.
  - unfold Normalizer.observe, vadd, vdiv, vsub, vmul; simpl.
    repeat split; in_range.
  - intros i Hlt.
    destruct (Hi i Hlt) as (nq & m & md & v & En & Hn & Em & Hm & Ed & _ & _).
    assert (Hpos : 0 <= nq) by (rewrite Hn; apply inject_nat_nonneg).
    assert (Hnz : ~ nq + 1 == 0) by lra.
    set (xi := nth i x 0).
    set (m' := m + (xi + - m) / (nq + 1)).
    set (md' := md + (xi + - m) * (xi + - m')).
    assert (En' : nth i (map (fun a => fadd a (Fin 1)) (Normalizer.n s)) NaN = Fin (nq + 1)).
    { rewrite (nth_map_in _ NaN) by lia. now rewrite En. }
    assert (Ex : nth i (lift x) NaN = Fin xi).
    { unfold lift. now rewrite (nth_map_in _ 0) by lia. }
    assert (Em' : nth i (vadd (Normalizer.mean s)
                          (vdiv (vsub (lift x) (Normalizer.mean s))
                                (map (fun a => fadd a (Fin 1)) (Normalizer.n s)))) NaN = Fin m').
    { unfold vadd, vdiv, vsub.
      rewrite (nth_zipWith _ NaN NaN) by in_range.
      rewrite (nth_zipWith _ NaN NaN) by in_range.
      rewrite (nth_zipWith _ NaN NaN) by in_range.
      rewrite En', Ex, Em. simpl fsub. rewrite fdiv_Fin by assumption. reflexivity. }
    assert (Ed' : nth i (vadd (Normalizer.mean_diff s)
                          (vmul (vsub (lift x) (Normalizer.mean s))
                                (vsub (lift x)
                                   (vadd (Normalizer.mean s)
                                      (vdiv (vsub (lift x) (Normalizer.mean s))
                                            (map (fun a => fadd a (Fin 1)) (Normalizer.n s)))))))
                      NaN = Fin md').
    { unfold vadd at 1. unfold vmul.
      rewrite (nth_zipWith _ NaN NaN) by (unfold vadd, vdiv, vsub; in_range).
      rewrite (nth_zipWith _ NaN NaN) by (unfold vadd, vdiv, vsub; in_range).
      unfold vsub at 1 2.
      rewrite (nth_zipWith _ NaN NaN) by in_range.
      rewrite (nth_zipWith _ NaN NaN) by (unfold vadd, vdiv, vsub; in_range).
      rewrite Em', Ex, Em, Ed. reflexivity. }
    destruct (clip_min_floor (md' / (nq + 1))) as (w & Ew & Hw).
    exists (nq + 1), m', md', w.
    unfold Normalizer.observe; cbn [Normalizer.n Normalizer.mean Normalizer.mean_diff Normalizer.variance].
    repeat split.
    + exact En'.
    + rewrite length_app; simpl. rewrite Nat.add_1_r, inject_nat_succ, Hn. reflexivity.
    + exact Em'.
    + unfold column. rewrite map_app; simpl. rewrite Qsum_snoc.
      fold (column i xs). rewrite <- Hm. fold xi. unfold m'. field. exact Hnz.
    + exact Ed'.
    + rewrite (nth_map_in _ NaN) by (unfold vadd, vdiv, vsub, vmul; in_range).
      unfold vdiv at 1.
      rewrite (nth_zipWith _ NaN NaN) by (unfold vadd, vdiv, vsub, vmul; in_range).
      rewrite Ed', En'. rewrite fdiv_Fin by assumption. exact Ew.
    + intros _. exact Hw.
Qed.

Lemma tracks_observe_all (d : nat) (xs : list (list Q)) :
  Forall (fun x => List.length x = d) xs ->
  tracks d xs (Normalizer.observe_all (Normalizer.init d) (map lift xs)).
Proof.
  induction xs as [|x xs IH] using rev_ind; intro Hall.
  - apply tracks_init.
  - apply Forall_app in Hall. destruct Hall as [Hxs Hx].
    unfold Normalizer.observe_all. rewrite map_app, fold_left_app. simpl.
    apply tracks_observe.
    + apply IH, Hxs.
    + now inversion Hx.
Qed.

Lemma nth_arithmetic_mean (d : nat) (xs : list (list Q)) (i : nat) :
  (i < d)%nat ->
  nth i (arithmetic_mean d xs) NaN =
  Fin (Qsum (column i xs) / inject_Z (Z.of_nat (List.length xs))).
Proof.
  intro Hi. unfold arithmetic_mean.
  rewrite (nth_map_in _ O) by (rewrite length_seq; lia).
  now rewrite seq_nth.
Qed.

Lemma inject_nat_pos (k : nat) : (0 < k)%nat -> 0 < inject_Z (Z.of_nat k).
Proof.
  intro Hk. change 0 with (inject_Z 0). rewrite <- Zlt_Qlt. lia.
Qed.

Lemma nonempty_length {A : Type} (l : list A) : l <> [] -> (0 < List.length l)%nat.
Proof.
  destruct l; [congruence|simpl; lia].
Qed.

(** The scenario of two observations in dimension 2. *)
Example observe_twice :
  let s := Normalizer.observe_all (Normalizer.init 2)
             [lift [1; 2]; lift [3; 4]] in
  vec_feqb (Normalizer.mean s) (lift [2; 3]) = true /\
  vec_feqb (Normalizer.n s) (lift [2; 2]) = true /\
  vec_feqb (Normalizer.variance s) (lift [1; 1]) = true.
Proof. vm_compute. auto. Qed.

(** C6. Feeding the observations x1..xk (k >= 1, all of dimension d) to a
    fresh normalizer leaves n equal to k in every dimension and mean equal
    to the arithmetic mean of x1..xk, exactly; after a single observe(x),
    mean == x and n == 1 in every dimension. *)
Theorem observe_all_mean_is_arithmetic_mean :
  forall (d : nat) (xs : list (list Q)),
    xs <> [] ->
    Forall (fun x => List.length x = d) xs ->
    let s := Normalizer.observe_all (Normalizer.init d) (map lift xs) in
    vec_feq (Normalizer.n s) (repeat (of_nat (List.length xs)) d) /\
    vec_feq (Normalizer.mean s) (arithmetic_mean d xs) /\
    (forall x, xs = [x] ->
       vec_feq (Normalizer.mean s) (lift x) /\
       vec_feq (Normalizer.n s) (repeat (Fin 1) d)).
Proof.
  intros d xs Hne Hall. cbv zeta.
  destruct (tracks_observe_all d xs Hall) as [(Ln & Lm & _ & _) Hi].
  remember (Normalizer.observe_all (Normalizer.init d) (map lift xs)) as s eqn:Es.
  pose proof (inject_nat_pos _ (nonempty_length xs Hne)) as Hk.
  assert (Hn : vec_feq (Normalizer.n s) (repeat (of_nat (List.length xs)) d)).
  { apply (Forall2_of_nth feq NaN NaN).
    - now rewrite repeat_length.
    - intros i Hlt. rewrite Ln in Hlt.
      destruct (Hi i Hlt) as (nq & m & md & v & En & Hnq & _).
      rewrite En, nth_repeat_in by assumption. exact Hnq. }
  assert (Hm : vec_feq (Normalizer.mean s) (arithmetic_mean d xs)).
  { apply (Forall2_of_nth feq NaN NaN).
    - unfold arithmetic_mean. now rewrite length_map, length_seq.
    - intros i Hlt. rewrite Lm in Hlt.
      destruct (Hi i Hlt) as (nq & m & md & v & _ & Hnq & Em & Hmq & _).
      rewrite Em, nth_arithmetic_mean by assumption. simpl.
      rewrite <- Hmq, Hnq. field. lra. }
  repeat split; try assumption.
  - subst xs. apply (Forall2_of_nth feq NaN NaN).
    + unfold lift. rewrite length_map. inversion Hall; subst. lia.
    + intros i Hlt. rewrite Lm in Hlt.
      destruct (Hi i Hlt) as (nq & m & md & v & _ & Hnq & Em & Hmq & _).
      assert (Lx : List.length x = d) by now inversion Hall.
      rewrite Em. unfold lift. rewrite (nth_map_in _ 0) by lia.
      change (inject_Z (Z.of_nat (List.length [x]))) with 1 in Hnq.
      change (Qsum (column i [x])) with (nth i x 0 + 0) in Hmq.
      rewrite Hnq in Hmq. unfold feq. lra.
  - subst xs. simpl in Hn. exact Hn.
Qed.

Lemma observe_all_mean_is_arithmetic_mean_witness :
  let d := 2%nat in
  let xs := [[1; 2]; [3; 4]] in
  let s := Normalizer.observe_all (Normalizer.init d) (map lift xs) in
  vec_feq (Normalizer.n s) (repeat (of_nat (List.length xs)) d) /\
  vec_feq (Normalizer.mean s) (arithmetic_mean d xs) /\
  (forall x, xs = [x] ->
     vec_feq (Normalizer.mean s) (lift x) /\
     vec_feq (Normalizer.n s) (repeat (Fin 1) d)).
Proof.
  apply (observe_all_mean_is_arithmetic_mean 2 [[1; 2]; [3; 4]]).
  - discriminate.
  - repeat constructor.
Defined.

(** On finite observations of dimension d, in exact arithmetic, the
    variance is at least 0.01 after each of the first k >= 1 observations. *)
Lemma variance_floor_on_finite_prefix :
  forall (d : nat) (xs : list (list Q)) (k : nat),
    Forall (fun x => List.length x = d) xs ->
    (1 <= k <= List.length xs)%nat ->
    let s := Normalizer.observe_all (Normalizer.init d) (map lift (firstn k xs)) in
    List.length (Normalizer.variance s) = d /\
    Forall (fun v => fle (Fin (1 # 100)) v) (Normalizer.variance s).
Proof.
  intros d xs k Hall Hk. cbv zeta.
  assert (Hpre : Forall (fun x => List.length x = d) (firstn k xs)).
  { rewrite Forall_forall in *. intros x Hin. apply Hall.
    rewrite <- (firstn_skipn k xs). apply in_or_app. now left. }
  assert (Hne : firstn k xs <> []).
  { intro E. apply (f_equal (@List.length _)) in E.
    rewrite length_firstn in E. simpl in E. lia. }
  destruct (tracks_observe_all d _ Hpre) as [(_ & _ & _ & Lv) Hi].
  remember (Normalizer.observe_all (Normalizer.init d) (map lift (firstn k xs))) as s eqn:Es.
  split; [exact Lv|].
  apply Forall_nth. intros i dflt Hlt. rewrite Lv in Hlt.
  destruct (Hi i Hlt) as (nq & m & md & v & _ & _ & _ & _ & _ & Ev & Hv).
  rewrite (nth_indep _ dflt NaN) by lia.
  rewrite Ev. simpl. now apply Hv.
Qed.

Lemma clip_min_floor_or_nan (y : num) :
  clip_min Normalizer.epsilon y = NaN \/
  fle Normalizer.epsilon (clip_min Normalizer.epsilon y).
Proof.
  destruct y as [v| | |]; unfold clip_min, Normalizer.epsilon; cbn [fltb].
  - destruct (Qltb v (1 # 100)) eqn:E; right; cbn [fle].
    + apply Qle_refl.
    + now apply Qltb_false.
  - right. exact I.
  - right. cbn [fle]. apply Qle_refl.
  - now left.
Qed.

(** C7, as stated, fails when an observation is not a finite number: after
    observing nan the variance is nan, which is not >= 0.01. *)
Lemma nan_observation_breaks_variance_floor :
  Normalizer.variance (Normalizer.observe_all (Normalizer.init 1) [[NaN]]) = [NaN] /\
  Normalizer.variance (Normalizer.observe_all (Normalizer.init 1) [[PInf]]) = [NaN] /\
  ~ Forall (fun v => fle (Fin (1 # 100)) v)
           (Normalizer.variance (Normalizer.observe_all (Normalizer.init 1) [[NaN]])).
Proof.
  split; [reflexivity|]. split; [reflexivity|].
  intro Hall. inversion Hall as [|v l Hv _]; subst. exact Hv.
Qed.

(** C7, amended. After every observe call, whatever the state and the
    observation are, each variance[i] is either >= 0.01 or nan.  For
    sequences of finite observation vectors of the normalizer's dimension,
    in exact arithmetic (no rounding, no overflow), variance[i] >= 0.01
    holds after every observe call, in every dimension i. *)
Theorem variance_is_floored_or_nan_after_every_observe :
  (forall (s : Normalizer.t) (x : vec),
      Forall (fun v => v = NaN \/ fle (Fin (1 # 100)) v)
             (Normalizer.variance (Normalizer.observe s x))) /\
  (forall (d : nat) (xs : list (list Q)) (k : nat),
      Forall (fun x => List.length x = d) xs ->
      (1 <= k <= List.length xs)%nat ->
      let s := Normalizer.observe_all (Normalizer.init d) (map lift (firstn k xs)) in
      List.length (Normalizer.variance s) = d /\
      Forall (fun v => fle (Fin (1 # 100)) v) (Normalizer.variance s)).
Proof.
  split.
  - intros s x. unfold Normalizer.observe; cbn [Normalizer.variance].
    apply Forall_map, Forall_forall. intros y _. apply clip_min_floor_or_nan.
  - exact variance_floor_on_finite_prefix.
Qed.

Lemma variance_is_floored_or_nan_after_every_observe_witness :
  Forall (fun v => v = NaN \/ fle (Fin (1 # 100)) v)
         (Normalizer.variance (Normalizer.observe (Normalizer.init 2) [PInf; Fin 1])) /\
  let s := Normalizer.observe_all (Normalizer.init 2)
             (map lift (firstn 1 [[1; 2]; [3; 4]])) in
  List.length (Normalizer.variance s) = 2%nat /\
  Forall (fun v => fle (Fin (1 # 100)) v) (Normalizer.variance s).
Proof.
  split.
  - apply (proj1 variance_is_floored_or_nan_after_every_observe).
  - apply (proj2 variance_is_floored_or_nan_after_every_observe 2%nat [[1; 2]; [3; 4]] 1%nat).
    + repeat constructor.
    + simpl; lia.
Defined.

(* ================================================================== *)
(** ** The observation count *)

Lemma count_step (a : num) (k : nat) :
  feq a (of_nat k) -> feq (fadd a (Fin 1)) (of_nat (S k)).
Proof.
  destruct a as [q| | |]; unfold of_nat; cbn [feq fadd]; try contradiction.
  intro Hq. rewrite inject_nat_succ, Hq. reflexivity.
Qed.

Lemma count_after_observe_all (xs : list vec) :
  forall (s : Normalizer.t) (k0 : nat),
    Forall (fun a => feq a (of_nat k0)) (Normalizer.n s) ->
    Forall (fun a => feq a (of_nat (k0 + List.length xs)))
           (Normalizer.n (Normalizer.observe_all s xs)) /\
    List.length (Normalizer.n (Normalizer.observe_all s xs)) = List.length (Normalizer.n s).
Proof.
  induction xs as [|x xs IH]; intros s k0 Hs.
  - simpl. rewrite Nat.add_0_r. auto.
  - simpl. destruct (IH (Normalizer.observe s x) (S k0)) as [Hall Hlen].
    + simpl. apply Forall_map. revert Hs. apply Forall_impl.
      intros a Ha. now apply count_step.
    + split.
      * replace (k0 + S (List.length xs))%nat with (S k0 + List.length xs)%nat by lia.
        exact Hall.
      * rewrite Hlen. simpl. now rewrite length_map.
Qed.

(** C10. Every observe call adds 1.0 to all components of n together, so
    after k observe calls on a fresh normalizer of dimension d every
    component of n equals k. *)
Theorem count_is_shared_across_dimensions :
  (forall (s : Normalizer.t) (x : vec),
      Normalizer.n (Normalizer.observe s x) =
      map (fun a => fadd a (Fin 1)) (Normalizer.n s)) /\
  (forall (d : nat) (xs : list vec),
      Forall (fun x => List.length x = d) xs ->
      vec_feq (Normalizer.n (Normalizer.observe_all (Normalizer.init d) xs))
              (repeat (of_nat (List.length xs)) d)).
Proof.
  split; [reflexivity|].
  intros d xs _.
  destruct (count_after_observe_all xs (Normalizer.init d) O) as [Hall Hlen].
  - simpl. unfold np_zeros. apply Forall_forall. intros a Ha.
    apply repeat_spec in Ha. subst a. simpl. reflexivity.
  - simpl in Hall, Hlen. unfold np_zeros in Hlen. rewrite repeat_length in Hlen.
    apply (Forall2_of_nth feq NaN NaN).
    + now rewrite repeat_length.
    + intros i Hi. rewrite nth_repeat_in by lia.
      rewrite Forall_forall in Hall. apply Hall. apply nth_In. exact Hi.
Qed.

Lemma count_is_shared_across_dimensions_witness :
  vec_feq (Normalizer.n (Normalizer.observe_all (Normalizer.init 2)
                           [lift [1; 2]; lift [3; 4]; lift [5; 6]]))
          (repeat (of_nat 3) 2).
Proof.
  apply (proj2 count_is_shared_across_dimensions 2%nat
           [lift [1; 2]; lift [3; 4]; lift [5; 6]]).
  repeat constructor.
Defined.

(* ================================================================== *)
(** ** The variance floor and [normalize] *)

(** C2, as stated, fails on a fresh normalizer: [__init__] fills variance
    with zeros, below the floor, and [normalize] then divides by zero. *)
Lemma fresh_normalizer_variance_is_zero :
  Normalizer.variance (Normalizer.init 1) = [Fin 0] /\
  ~ Forall (fun v => fle Normalizer.epsilon v) (Normalizer.variance (Normalizer.init 1)) /\
  Normalizer.normalize Qsqrt_grid (Normalizer.init 1) [Fin 1] = [PInf].
Proof.
  split; [reflexivity|]. split; [|reflexivity].
  intro Hall. inversion Hall as [|v l Hv _]; subst.
  simpl in Hv. apply Qle_bool_iff in Hv. discriminate.
Qed.

(** On finite observations, in exact arithmetic: once observe has been
    called, variance[i] >= epsilon, the standard deviation normalize divides
    by is positive, and normalize returns finite values. *)
Lemma variance_floor_on_finite_observations :
  forall (sqrtQ : Q -> Q) (d : nat) (xs : list (list Q)) (input : list Q),
    (forall q, 0 < q -> 0 < sqrtQ q) ->
    xs <> [] ->
    Forall (fun x => List.length x = d) xs ->
    List.length input = d ->
    let s := Normalizer.observe_all (Normalizer.init d) (map lift xs) in
    Normalizer.variance (Normalizer.init d) = repeat (Fin 0) d /\
    Forall (fun v => fle Normalizer.epsilon v) (Normalizer.variance s) /\
    Forall (fun v => fle Normalizer.epsilon v /\ exists q, fsqrt sqrtQ v = Fin q /\ 0 < q)
           (Normalizer.variance s) /\
    List.length (Normalizer.normalize sqrtQ s (lift input)) = d /\
    Forall is_finite (Normalizer.normalize sqrtQ s (lift input)).
Proof.
  intros sqrtQ d xs input Hsqrt Hne Hall Lin. cbv zeta.
  destruct (tracks_observe_all d xs Hall) as [(Ln & Lm & Ld & Lv) Hi].
  remember (Normalizer.observe_all (Normalizer.init d) (map lift xs)) as s eqn:Es.
  assert (Hvar : forall i, (i < d)%nat ->
            exists m v, nth i (Normalizer.mean s) NaN = Fin m /\
                        nth i (Normalizer.variance s) NaN = Fin v /\
                        (1 # 100) <= v /\
                        fsqrt sqrtQ (Fin v) = Fin (sqrtQ v) /\ 0 < sqrtQ v).
  { intros i Hlt.
    destruct (Hi i Hlt) as (nq & m & md & v & _ & _ & Em & _ & _ & Ev & Hv).
    specialize (Hv Hne). exists m, v. repeat split; try assumption.
    - simpl. assert (E : Qltb v 0 = false) by (apply Qltb_false; lra).
      now rewrite E.
    - apply Hsqrt. lra. }
  split; [reflexivity|].
  assert (Hfloor : Forall (fun v => fle Normalizer.epsilon v /\
                              exists q, fsqrt sqrtQ v = Fin q /\ 0 < q)
                          (Normalizer.variance s)).
  { apply Forall_nth. intros i dflt Hlt. rewrite Lv in Hlt.
    destruct (Hvar i Hlt) as (m & v & _ & Ev & Hv & Es' & Hs).
    rewrite (nth_indep _ dflt NaN) by lia. rewrite Ev. split.
    - exact Hv.
    - exists (sqrtQ v). split; assumption. }
  split; [|split; [exact Hfloor|]].
  { revert Hfloor. apply Forall_impl. intros v [Hv _]. exact Hv. }
  assert (Lout : List.length (Normalizer.normalize sqrtQ s (lift input)) = d).
  { unfold Normalizer.normalize. in_range. }
  split; [exact Lout|].
  apply Forall_nth. intros i dflt Hlt. rewrite Lout in Hlt.
  destruct (Hvar i Hlt) as (m & v & Em & Ev & Hv & Es' & Hs).
  rewrite (nth_indep _ dflt NaN) by lia.
  unfold Normalizer.normalize, vdiv, vsub.
  rewrite (nth_zipWith _ NaN NaN) by in_range.
  rewrite (nth_zipWith _ NaN NaN) by in_range.
  rewrite (nth_map_in _ NaN) by lia.
  unfold lift. rewrite (nth_map_in _ 0) by lia.
  rewrite Em, Ev, Es'. simpl fsub. rewrite fdiv_Fin by lra. exact I.
Qed.

Lemma Qsqrt_grid_pos (q : Q) : 0 < q -> 0 < Qsqrt_grid q.
Proof.
  destruct q as [a b]. unfold Qlt, Qsqrt_grid; simpl. intro Ha.
  assert (Hp : (1 <= a * Z.pos b)%Z) by nia.
  pose proof (Z.sqrt_le_mono _ _ Hp) as Hs.
  change (Z.sqrt 1) with 1%Z in Hs. lia.
Qed.

Lemma Qsqrt_grid_zero (q : Q) : q == 0 -> Qsqrt_grid q == 0.
Proof.
  destruct q as [a b]. unfold Qeq, Qsqrt_grid; simpl. intro Ha.
  assert (E : a = 0%Z) by lia. subst a. reflexivity.
Qed.

Lemma sqrt_of_floored_is_not_zero (sqrtQ : Q -> Q) (y : num) :
  (forall q, 0 < q -> 0 < sqrtQ q) ->
  ~ feq (fsqrt sqrtQ (clip_min Normalizer.epsilon y)) (Fin 0).
Proof.
  intros Hsqrt.
  assert (Hfin : forall w, (1 # 100) <= w -> ~ feq (fsqrt sqrtQ (Fin w)) (Fin 0)).
  { intros w Hw. cbn [fsqrt].
    assert (E : Qltb w 0 = false) by (apply Qltb_false; lra).
    rewrite E. cbn [feq]. assert (0 < sqrtQ w) by (apply Hsqrt; lra). lra. }
  destruct y as [v| | |]; unfold clip_min, Normalizer.epsilon; cbn [fltb].
  - destruct (Qltb v (1 # 100)) eqn:E.
    + apply Hfin. apply Qle_refl.
    + apply Hfin. now apply Qltb_false.
  - cbn [fsqrt feq]. tauto.
  - apply Hfin. apply Qle_refl.
  - cbn [fsqrt feq]. tauto.
Qed.

(** C2, amended. A freshly constructed normalizer has variance 0 in every
    dimension (below epsilon), so that normalize called before any observe
    divides by zero.  After any observe call, whatever was observed, each
    variance[i] is either >= epsilon or nan, and the standard deviation
    normalize divides by is never zero.  For finite observations of the
    normalizer's dimension, in exact arithmetic (no rounding, no overflow),
    variance[i] >= epsilon after at least one observe call, the standard
    deviation is positive and normalize returns finite values. *)
Theorem normalize_divisor_is_never_zero_once_observed :
  forall (sqrtQ : Q -> Q),
    (forall q, 0 < q -> 0 < sqrtQ q) ->
    (forall d : nat, Normalizer.variance (Normalizer.init d) = repeat (Fin 0) d) /\
    (forall (s : Normalizer.t) (x : vec),
        Forall (fun v => (v = NaN \/ fle Normalizer.epsilon v) /\
                         ~ feq (fsqrt sqrtQ v) (Fin 0))
               (Normalizer.variance (Normalizer.observe s x))) /\
    (forall (d : nat) (xs : list (list Q)) (input : list Q),
        xs <> [] ->
        Forall (fun x => List.length x = d) xs ->
        List.length input = d ->
        let s := Normalizer.observe_all (Normalizer.init d) (map lift xs) in
        Forall (fun v => fle Normalizer.epsilon v /\
                         exists q, fsqrt sqrtQ v = Fin q /\ 0 < q)
               (Normalizer.variance s) /\
        List.length (Normalizer.normalize sqrtQ s (lift input)) = d /\
        Forall is_finite (Normalizer.normalize sqrtQ s (lift input))).
Proof.
  intros sqrtQ Hsqrt. split; [reflexivity|]. split.
  - intros s x. unfold Normalizer.observe; cbn [Normalizer.variance].
    apply Forall_map, Forall_forall. intros y _. split.
    + apply clip_min_floor_or_nan.
    + now apply sqrt_of_floored_is_not_zero.
  - intros d xs input Hne Hall Lin.
    destruct (variance_floor_on_finite_observations sqrtQ d xs input Hsqrt Hne Hall Lin)
      as (_ & _ & H3 & H4 & H5).
    cbv zeta. split; [exact H3|]. split; [exact H4|exact H5].
Qed.

Lemma normalize_divisor_is_never_zero_once_observed_witness :
  Forall (fun v => (v = NaN \/ fle Normalizer.epsilon v) /\
                   ~ feq (fsqrt Qsqrt_grid v) (Fin 0))
         (Normalizer.variance (Normalizer.observe (Normalizer.init 2) [NaN; Fin 1])) /\
  let s := Normalizer.observe_all (Normalizer.init 2) (map lift [[1; 2]; [3; 4]]) in
  Forall (fun v => fle Normalizer.epsilon v /\
                   exists q, fsqrt Qsqrt_grid v = Fin q /\ 0 < q)
         (Normalizer.variance s) /\
  List.length (Normalizer.normalize Qsqrt_grid s (lift [1; 2])) = 2%nat /\
  Forall is_finite (Normalizer.normalize Qsqrt_grid s (lift [1; 2])).
Proof.
  destruct (normalize_divisor_is_never_zero_once_observed Qsqrt_grid Qsqrt_grid_pos)
    as (_ & Hany & Hfinite).
  split.
  - apply Hany.
  - apply (Hfinite 2%nat [[1; 2]; [3; 4]] [1; 2]).
    + discriminate.
    + repeat constructor.
    + reflexivity.
Defined.

(* ================================================================== *)
(** ** Same-value reasoning *)

Lemma feq_refl (x : num) : feq x x.
Proof. destruct x; simpl; auto. reflexivity. Qed.

Lemma feq_sym (x y : num) : feq x y -> feq y x.
Proof. destruct x, y; simpl; auto. intro E; now symmetry. Qed.


Lemma fadd_feq (a a' b b' : num) :
  feq a a' -> feq b b' -> feq (fadd a b) (fadd a' b').
Proof.
  destruct a, a', b, b'; simpl; auto; try contradiction.
  intros E1 E2. now rewrite E1, E2.
Qed.

Lemma sign_feq (a a' : num) : feq a a' -> sign a = sign a'.
Proof.
  destruct a, a'; simpl; auto; try contradiction.
  intro E. now rewrite E.
Qed.

Lemma fmul_feq (a a' b b' : num) :
  feq a a' -> feq b b' -> feq (fmul a b) (fmul a' b').
Proof.
  intros Ea Eb.
  pose proof (sign_feq _ _ Ea) as Sa. pose proof (sign_feq _ _ Eb) as Sb.
  destruct a, a', b, b'; simpl in Ea, Eb, Sa, Sb; try contradiction;
    unfold fmul, sign; try rewrite Sa; try rewrite Sb; try apply feq_refl.
  cbn [feq]. now rewrite Ea, Eb.
Qed.

Lemma fadd_zero_r (t : num) (z : Q) : z == 0 -> feq (fadd t (Fin z)) t.
Proof.
  destruct t; simpl; auto. intro E. rewrite E. ring.
Qed.

Lemma fsub_zero_r (t : num) (z : Q) : z == 0 -> feq (fsub t (Fin z)) t.
Proof.
  intro E. unfold fsub; cbn [fneg]. apply fadd_zero_r. rewrite E. reflexivity.
Qed.

Lemma vec_feq_refl (v : vec) : vec_feq v v.
Proof. induction v; constructor; auto using feq_refl. Qed.

Lemma fold_fadd_feq (l l' : vec) :
  vec_feq l l' -> forall a a', feq a a' -> feq (fold_left fadd l a) (fold_left fadd l' a').
Proof.
  induction 1 as [|x x' l l' Hx _ IH]; intros a a' Ha; simpl.
  - exact Ha.
  - apply IH. now apply fadd_feq.
Qed.

Lemma dot_feq (r r' x : vec) : vec_feq r r' -> feq (dot r x) (dot r' x).
Proof.
  intro Hr. unfold dot, fsum. apply fold_fadd_feq; [|apply feq_refl].
  revert x. induction Hr as [|a a' r r' Ha _ IH]; intros [|b x]; simpl; try constructor.
  - apply fmul_feq; [exact Ha|apply feq_refl].
  - apply IH.
Qed.

Lemma mat_vec_feq (m m' : matrix) (x : vec) :
  mat_feq m m' -> vec_feq (mat_vec m x) (mat_vec m' x).
Proof.
  induction 1 as [|r r' m m' Hr _ IH]; simpl; constructor.
  - now apply dot_feq.
  - exact IH.
Qed.

(* ================================================================== *)
(** ** Policy evaluation *)

Lemma row_plus_scaled_zeros (op : num -> num -> num) (nz : Q) :
  (forall t z, z == 0 -> feq (op t (Fin z)) t) ->
  forall (row : vec) (c : nat),
    List.length row = c ->
    vec_feq (zipWith op row (map (fmul (Fin nz)) (np_zeros c))) row.
Proof.
  intros Hop. induction row as [|a row IH]; intros c Hc; subst c; simpl.
  - constructor.
  - constructor.
    + apply Hop. ring.
    + now apply IH.
Qed.

Lemma mat_plus_scaled_zeros (op : num -> num -> num) (nz : Q) :
  (forall t z, z == 0 -> feq (op t (Fin z)) t) ->
  forall (m : matrix) (r c : nat),
    has_shape r c m ->
    mat_feq (zipWith (zipWith op) m (mat_scale (Fin nz) (np_zeros2 (r, c)))) m.
Proof.
  intros Hop. induction m as [|row m IH]; intros r c [Hr Hc]; subst r; simpl.
  - constructor.
  - inversion Hc as [|? ? Hrow Hrest]; subst. constructor.
    + now apply row_plus_scaled_zeros.
    + apply IH. split; [reflexivity|assumption].
Qed.

(** C8. evaluate with no direction returns weights . input (whatever delta
    is), and for a finite noise this is what evaluate returns with
    direction Plus, and with direction Minus, on the zero delta of the
    weights' shape. *)
Theorem evaluate_no_direction_is_zero_delta :
  forall (p : Policy.t) (input : vec) (r c : nat) (nz : Q),
    has_shape r c (Policy.theta p) ->
    List.length input = c ->
    Hp.noise (Policy.hp p) = Fin nz ->
    let zero := np_zeros2 (r, c) in
    (forall delta, Policy.evaluate p input delta None = mat_vec (Policy.theta p) input) /\
    vec_feq (Policy.evaluate p input zero (Some Plus)) (Policy.evaluate p input zero None) /\
    vec_feq (Policy.evaluate p input zero (Some Minus)) (Policy.evaluate p input zero None).
Proof.
  intros p input r c nz Hshape _ Hnoise. cbv zeta.
  split; [reflexivity|]. unfold Policy.evaluate. rewrite Hnoise. split.
  - apply mat_vec_feq. unfold mat_add, vadd.
    apply mat_plus_scaled_zeros; [exact fadd_zero_r|exact Hshape].
  - apply mat_vec_feq. unfold mat_sub, vsub.
    apply mat_plus_scaled_zeros; [exact fsub_zero_r|exact Hshape].
Qed.

Lemma evaluate_no_direction_is_zero_delta_witness :
  let p := {| Policy.theta := lift2 [[1; 2; 3]; [4; 5; 6]]; Policy.hp := example_hp |} in
  let input := lift [1; 0; -1] in
  let zero := np_zeros2 (2%nat, 3%nat) in
  (forall delta, Policy.evaluate p input delta None = mat_vec (Policy.theta p) input) /\
  vec_feq (Policy.evaluate p input zero (Some Plus)) (Policy.evaluate p input zero None) /\
  vec_feq (Policy.evaluate p input zero (Some Minus)) (Policy.evaluate p input zero None).
Proof.
  apply (evaluate_no_direction_is_zero_delta
           {| Policy.theta := lift2 [[1; 2; 3]; [4; 5; 6]]; Policy.hp := example_hp |}
           (lift [1; 0; -1]) 2 3 (3 # 100)).
  - split; [reflexivity|repeat constructor].
  - reflexivity.
  - reflexivity.
Defined.

(* ================================================================== *)
(** ** The policy update on finite data *)

Lemma zipWith_map {A A' B B' C : Type} (f : A' -> B' -> C) (g : A -> A') (h : B -> B') :
  forall (l : list A) (m : list B),
    zipWith f (map g l) (map h m) = zipWith (fun x y => f (g x) (h y)) l m.
Proof.
  induction l as [|a l IH]; intros [|b m]; simpl; try reflexivity.
  now rewrite IH.
Qed.

Lemma map_zipWith {A B C D : Type} (k : C -> D) (f : A -> B -> C) :
  forall (l : list A) (m : list B),
    map k (zipWith f l m) = zipWith (fun x y => k (f x y)) l m.
Proof.
  induction l as [|a l IH]; intros [|b m]; simpl; try reflexivity.
  now rewrite IH.
Qed.

Lemma vadd_lift (a b : list Q) : vadd (lift a) (lift b) = lift (zipWith Qplus a b).
Proof.
  unfold vadd, lift. now rewrite zipWith_map, map_zipWith.
Qed.

Lemma mat_add_lift2 (A B : list (list Q)) :
  mat_add (lift2 A) (lift2 B) = lift2 (zipWith (zipWith Qplus) A B).
Proof.
  unfold mat_add, lift2. rewrite zipWith_map, map_zipWith.
  revert B. induction A as [|a A IH]; intros [|b B]; simpl; try reflexivity.
  now rewrite vadd_lift, IH.
Qed.

Lemma mat_scale_lift2 (s : Q) (D : list (list Q)) :
  mat_scale (Fin s) (lift2 D) = lift2 (map (map (Qmult s)) D).
Proof.
  unfold mat_scale, lift2, lift. rewrite !map_map.
  apply map_ext. intro row. now rewrite !map_map.
Qed.

Lemma has_shape_row {A : Type} (r c : nat) (m : list (list A)) (i : nat) :
  has_shape r c m -> (i < r)%nat -> List.length (nth i m []) = c.
Proof.
  intros [Hr Hc] Hi. rewrite Forall_forall in Hc. apply Hc, nth_In. lia.
Qed.

Lemma has_shape_zipWith {A : Type} (f : A -> A -> A) (r c : nat) (m m' : list (list A)) :
  has_shape r c m -> has_shape r c m' -> has_shape r c (zipWith (zipWith f) m m').
Proof.
  intros [Hr Hc] [Hr' Hc']. split.
  - rewrite length_zipWith. lia.
  - clear Hr Hr'. revert m' Hc'.
    induction Hc as [|a m Ha _ IH]; intros [|b m'] Hc'; simpl; constructor.
    + inversion Hc'; subst. rewrite length_zipWith. lia.
    + inversion Hc'; subst. now apply IH.
Qed.

Lemma has_shape_map {A B : Type} (f : A -> B) (r c : nat) (m : list (list A)) :
  has_shape r c m -> has_shape r c (map (map f) m).
Proof.
  intros [Hr Hc]. split.
  - now rewrite length_map.
  - apply Forall_map. revert Hc. apply Forall_impl. intros row Hrow.
    now rewrite length_map.
Qed.

Lemma has_shape_repeat {A : Type} (a : A) (r c : nat) :
  has_shape r c (repeat (repeat a c) r).
Proof.
  split.
  - apply repeat_length.
  - apply Forall_forall. intros row Hin. apply repeat_spec in Hin. subst row.
    apply repeat_length.
Qed.

Lemma np_zeros2_shape (r c : nat) (m : matrix) :
  has_shape r c m -> np_zeros2 (shape m) = lift2 (repeat (repeat 0 c) r).
Proof.
  intros [Hr Hc]. destruct m as [|row m]; simpl in *.
  - subst r. reflexivity.
  - inversion Hc; subst. unfold np_zeros2, np_zeros, lift2, lift; simpl.
    rewrite !map_repeat. reflexivity.
Qed.

Lemma nth_entry_zipWith (f : Q -> Q -> Q) (r c : nat) (A B : list (list Q)) (i j : nat) :
  has_shape r c A -> has_shape r c B -> (i < r)%nat -> (j < c)%nat ->
  nth j (nth i (zipWith (zipWith f) A B) []) 0 =
  f (nth j (nth i A []) 0) (nth j (nth i B []) 0).
Proof.
  intros HA HB Hi Hj.
  rewrite (nth_zipWith _ [] []) by (destruct HA, HB; lia).
  apply nth_zipWith.
  - now rewrite (has_shape_row r c A i).
  - now rewrite (has_shape_row r c B i).
Qed.

Lemma nth_entry_map (f : Q -> Q) (r c : nat) (A : list (list Q)) (i j : nat) :
  has_shape r c A -> (i < r)%nat -> (j < c)%nat ->
  nth j (nth i (map (map f) A) []) 0 = f (nth j (nth i A []) 0).
Proof.
  intros HA Hi Hj.
  rewrite (nth_map_in _ []) by (destruct HA; lia).
  apply nth_map_in. now rewrite (has_shape_row r c A i).
Qed.


Lemma update_step_lifted (r c : nat) (rs : list (Q * Q * list (list Q))) :
  forall A : list (list Q),
    has_shape r c A ->
    Forall (fun t => has_shape r c (snd t)) rs ->
    exists B : list (list Q),
      has_shape r c B /\
      fold_left (fun step '(r_pos, r_neg, delta) =>
                   mat_add step (mat_scale (fsub r_pos r_neg) delta))
                (lift_rollouts rs) (lift2 A) = lift2 B /\
      forall i j, (i < r)%nat -> (j < c)%nat ->
        nth j (nth i B []) 0 == nth j (nth i A []) 0 + step_entry rs i j.
Proof.
  induction rs as [|[[rp rn] D] rs IH]; intros A HA Hrs.
  - exists A. repeat split; try apply HA. intros i j _ _.
    unfold step_entry; simpl. ring.
  - inversion Hrs as [|? ? HD Hrest]; subst. simpl in HD.
    set (A' := zipWith (zipWith Qplus) A (map (map (Qmult (rp + - rn))) D)).
    assert (HA' : has_shape r c A').
    { apply has_shape_zipWith; [exact HA|now apply has_shape_map]. }
    destruct (IH A' HA' Hrest) as (B & HB & EB & Hent).
    exists B. split; [exact HB|]. split.
    + simpl. cbn [fsub fneg fadd].
      rewrite mat_scale_lift2, mat_add_lift2. exact EB.
    + intros i j Hi Hj. rewrite (Hent i j Hi Hj). unfold A'.
      rewrite (nth_entry_zipWith _ r c) by (auto using has_shape_map).
      rewrite (nth_entry_map _ r c) by assumption.
      unfold step_entry; simpl. ring.
Qed.





(* ================================================================== *)
(** ** Rollouts *)

Lemma py_clamp_Fin (q : Q) :
  exists q', py_max (py_min (Fin q) (Fin 1)) (Fin (-1)) = Fin q' /\ q' == Qclamp q.
Proof.
  unfold py_min, py_max, Qclamp; cbn [fltb].
  destruct (Qltb 1 q) eqn:E1.
  - apply Qltb_true in E1. cbn [fltb].
    assert (E2 : Qltb 1 (-1) = false) by reflexivity. rewrite E2.
    exists 1. split; [reflexivity|].
    rewrite (Q.min_r q 1) by lra. rewrite Q.max_l by lra. reflexivity.
  - apply Qltb_false in E1. cbn [fltb].
    destruct (Qltb q (-1)) eqn:E2.
    + apply Qltb_true in E2. exists (-1). split; [reflexivity|].
      rewrite (Q.min_l q 1) by lra. rewrite Q.max_r by lra. reflexivity.
    + apply Qltb_false in E2. exists q. split; [reflexivity|].
      rewrite (Q.min_l q 1) by lra. rewrite Q.max_l by lra. reflexivity.
Qed.

Lemma Qclamp_bounds (q : Q) : -1 <= Qclamp q <= 1.
Proof.
  unfold Qclamp. split.
  - apply Q.le_max_r.
  - apply Q.max_lub; [apply Q.le_min_r|lra].
Qed.

Section Rollouts.

Context {E : Type} `{Environment E}.
Variable sqrtQ : Q -> Q.

Lemma explore_loop_plays (p : Policy.t) (direction : option Direction) (delta : matrix) :
  forall (remaining : nat) (e : E) (nz : Normalizer.t) (state : vec) (done : bool)
         (plays : nat) (total : num) (seen : list num),
    let r := ArsAgent.explore_loop sqrtQ p direction delta remaining e nz state done
               plays total seen in
    (plays <= ArsAgent.num_plays r <= plays + remaining)%nat /\
    List.length (ArsAgent.raw_rewards r) =
      (List.length seen + (ArsAgent.num_plays r - plays))%nat.
Proof.
  induction remaining as [|remaining IH]; intros e nz state done plays total seen; cbv zeta.
  - simpl. split; lia.
  - simpl. destruct done.
    + simpl. split; lia.
    + destruct (env_step e _) as [[[e' state2] reward] done'].
      specialize (IH e' (Normalizer.observe nz state) state2 done' (S plays)
                    (fadd total (py_max (py_min reward (Fin 1)) (Fin (-1))))
                    (seen ++ [reward])).
      cbv zeta in IH. destruct IH as [IH1 IH2]. split; [lia|].
      rewrite IH2, length_app; simpl. lia.
Qed.

Lemma explore_loop_sum (Hfin : finite_rewards E)
    (p : Policy.t) (direction : option Direction) (delta : matrix) :
  forall (remaining : nat) (e : E) (nz : Normalizer.t) (state : vec) (done : bool)
         (plays : nat) (t0 : Q) (seen0 : list Q),
    let r := ArsAgent.explore_loop sqrtQ p direction delta remaining e nz state done
               plays (Fin t0) (lift seen0) in
    exists (qs : list Q) (t : Q),
      ArsAgent.raw_rewards r = lift (seen0 ++ qs) /\
      ArsAgent.sum_rewards r = Fin t /\
      t == t0 + Qsum (map Qclamp qs).
Proof.
  induction remaining as [|remaining IH]; intros e nz state done plays t0 seen0; cbv zeta.
  - exists [], t0. simpl. rewrite app_nil_r. repeat split. ring.
  - simpl. destruct done.
    + exists [], t0. simpl. rewrite app_nil_r. repeat split. ring.
    + pose proof (Hfin e (Policy.evaluate p
                   (Normalizer.normalize sqrtQ (Normalizer.observe nz state) state)
                   delta direction)) as Hr.
      destruct (env_step e _) as [[[e' state2] reward] done']. simpl in Hr.
      destruct reward as [q| | |]; try contradiction.
      destruct (py_clamp_Fin q) as (q' & Eq' & Hq'). rewrite Eq'. cbn [fadd].
      replace (lift seen0 ++ [Fin q]) with (lift (seen0 ++ [q]))
        by (unfold lift; now rewrite map_app).
      destruct (IH e' (Normalizer.observe nz state) state2 done' (S plays)
                  (t0 + q') (seen0 ++ [q])) as (qs & t & Er & Et & Ht).
      exists (q :: qs), t. repeat split.
      * rewrite Er. now rewrite <- app_assoc.
      * exact Et.
      * rewrite Ht. simpl. rewrite Hq'. ring.
Qed.

End Rollouts.

(** One step of a stub returning the reward 5 contributes exactly 1; three
    steps contribute 3. *)
Example explore_reward_five :
  let a1 := ArsAgent.init short_hp (stub_five 1) None None None None in
  let a3 := ArsAgent.init example_hp (stub_five 3) None None None None in
  ArsAgent.raw_rewards (ArsAgent.explore_run Qsqrt_grid a1 None []) = [Fin 5] /\
  feqb (ArsAgent.sum_rewards (ArsAgent.explore_run Qsqrt_grid a1 None [])) (Fin 1) = true /\
  feqb (snd (ArsAgent.explore Qsqrt_grid a3 None [])) (Fin 3) = true.
Proof. vm_compute. auto. Qed.

Lemma stub_finite_rewards : finite_rewards Stub.
Proof.
  intros s action. exact I.
Qed.

Lemma explore_loop_follows_steps {E : Type} `{Environment E} (sqrtQ : Q -> Q)
    (p : Policy.t) (direction : option Direction) (delta : matrix) :
  forall (remaining : nat) (e : E) (nz : Normalizer.t) (state : vec) (done : bool)
         (plays : nat) (total : num) (seen : list num),
    let r := ArsAgent.explore_loop sqrtQ p direction delta remaining e nz state done
               plays total seen in
    let rewards := step_rewards sqrtQ p direction delta remaining e nz state done in
    ArsAgent.num_plays r = (plays + List.length rewards)%nat /\
    ArsAgent.raw_rewards r = seen ++ rewards /\
    ArsAgent.sum_rewards r =
      fold_left fadd (map (fun x => py_max (py_min x (Fin 1)) (Fin (-1))) rewards) total.
Proof.
  induction remaining as [|remaining IH];
    intros e nz state done plays total seen; cbv zeta.
  - simpl. rewrite app_nil_r. repeat split. lia.
  - simpl. destruct done.
    + simpl. rewrite app_nil_r. repeat split. lia.
    + destruct (env_step e _) as [[[e' state2] reward] done'].
      specialize (IH e' (Normalizer.observe nz state) state2 done' (S plays)
                    (fadd total (py_max (py_min reward (Fin 1)) (Fin (-1))))
                    (seen ++ [reward])).
      cbv zeta in IH. destruct IH as (I1 & I2 & I3).
      rewrite I1, I2, I3. simpl. rewrite <- app_assoc. repeat split. lia.
Qed.

(** C9, as stated, fails for a nan reward: max(min(nan, 1), -1) is nan, so
    one step of an environment returning nan contributes nan, outside
    [-1, 1], and the returned total is nan. *)
Lemma nan_reward_is_not_clamped :
  let a := ArsAgent.init short_hp (bandit_env NaN) None None None None in
  let r := ArsAgent.explore_run Qsqrt_grid a None [] in
  ArsAgent.num_plays r = 1%nat /\
  ArsAgent.raw_rewards r = [NaN] /\
  py_max (py_min NaN (Fin 1)) (Fin (-1)) = NaN /\
  ArsAgent.sum_rewards r = NaN /\
  ~ (fle (Fin (-1)) (ArsAgent.sum_rewards r) /\ fle (ArsAgent.sum_rewards r) (Fin 1)).
Proof.
  cbv zeta. repeat split; try reflexivity.
  intros [Hlo _]. vm_compute in Hlo. exact Hlo.
Qed.

(** C9, amended. In every rollout each step contributes
    max(min(reward, 1), -1) to the accumulated reward, where reward is what
    env.step returned: a finite reward contributes its clamp to [-1, 1], an
    infinite one contributes 1 or -1, a reward of 5 contributes exactly 1,
    and a nan reward contributes nan (it is not clamped).  The returned
    total is the sum, in step order, of the contributions of the rewards
    env.step returned, one per step played. *)
Theorem explore_sums_python_clamped_rewards :
  forall (E : Type) (H : Environment E) (sqrtQ : Q -> Q) (a : ArsAgent.t)
         (direction : option Direction) (delta : matrix),
    let r := ArsAgent.explore_run sqrtQ a direction delta in
    let start := env_reset (ArsAgent.env a) in
    let rewards :=
      step_rewards sqrtQ (ArsAgent.policy a) direction delta
                   (Hp.episode_length (ArsAgent.hp a)) (fst start)
                   (ArsAgent.normalizer a) (snd start) false in
    let contribution := fun x => py_max (py_min x (Fin 1)) (Fin (-1)) in
    snd (ArsAgent.explore sqrtQ a direction delta) = ArsAgent.sum_rewards r /\
    ArsAgent.num_plays r = List.length rewards /\
    ArsAgent.raw_rewards r = rewards /\
    ArsAgent.sum_rewards r = fold_left fadd (map contribution rewards) (Fin 0) /\
    (forall q : Q, exists q' : Q,
        contribution (Fin q) = Fin q' /\ q' == Qclamp q /\ -1 <= q' <= 1) /\
    contribution PInf = Fin 1 /\
    contribution NInf = Fin (-1) /\
    contribution NaN = NaN /\
    contribution (Fin 5) = Fin 1.
Proof.
  intros E H sqrtQ a direction delta. cbv zeta.
  split; [reflexivity|].
  unfold ArsAgent.explore_run. destruct (env_reset (ArsAgent.env a)) as [e0 state].
  cbn [fst snd].
  destruct (explore_loop_follows_steps sqrtQ (ArsAgent.policy a) direction delta
              (Hp.episode_length (ArsAgent.hp a)) e0 (ArsAgent.normalizer a)
              state false O (Fin 0) []) as (Hplays & Hraw & Hsum).
  split; [exact Hplays|]. split; [exact Hraw|]. split; [exact Hsum|].
  split.
  - intro q. destruct (py_clamp_Fin q) as (q' & Eq' & Hq').
    exists q'. split; [exact Eq'|]. split; [exact Hq'|].
    rewrite Hq'. apply Qclamp_bounds.
  - repeat split.
Qed.

Lemma explore_sums_python_clamped_rewards_witness :
  let a := ArsAgent.init example_hp (bandit_env (Fin 5)) None None None None in
  let r := ArsAgent.explore_run Qsqrt_grid a None [] in
  snd (ArsAgent.explore Qsqrt_grid a None []) = ArsAgent.sum_rewards r /\
  ArsAgent.num_plays r = 3%nat /\
  ArsAgent.raw_rewards r = [Fin 5; Fin 5; Fin 5] /\
  ArsAgent.sum_rewards r = Fin (0 + 1 + 1 + 1).
Proof.
  destruct (explore_sums_python_clamped_rewards (Bandit (Fin 5))
              (Bandit_Environment (Fin 5)) Qsqrt_grid
              (ArsAgent.init example_hp (bandit_env (Fin 5)) None None None None)
              None []) as (H1 & H2 & H3 & H4 & _).
  cbv zeta. split; [exact H1|]. split; [exact H2|]. split; [exact H3|exact H4].
Defined.

(* ================================================================== *)
(** ** The step cap *)

(** C3, as stated, fails when the environment's limit is larger than the
    configured episode_length: configured 1 against a limit of 2 gives the
    cap 2, not the minimum 1, and a rollout of 2 steps. *)
Lemma step_cap_exceeds_configured_length :
  let a := ArsAgent.init short_hp stub_limit_two None None None None in
  Hp.episode_length short_hp = 1%nat /\
  timestep_limit stub_limit_two = Some 2%nat /\
  Hp.episode_length (ArsAgent.hp a) = 2%nat /\
  Hp.episode_length (ArsAgent.hp a) <> Nat.min 1 2 /\
  ArsAgent.num_plays (ArsAgent.explore_run Qsqrt_grid a None []) = 2%nat /\
  ~ (ArsAgent.num_plays (ArsAgent.explore_run Qsqrt_grid a None [])
     <= Hp.episode_length short_hp)%nat.
Proof.
  cbv zeta. repeat split; try reflexivity.
  - vm_compute. discriminate.
  - vm_compute. lia.
Qed.

(** C3, amended. The step cap the trainer uses is the environment's own
    limit whenever the environment exposes a non-zero one, smaller or
    larger than the configured value, and the configured episode_length
    otherwise; it is the minimum of the two when the limit is non-zero and
    not larger than the configured value; a rollout never runs more steps
    than this cap. *)
Theorem step_cap_is_environment_limit_or_configured :
  forall (E : Type) (H : Environment E) (sqrtQ : Q -> Q) (h : Hp.t) (e : E)
         (input_size output_size : option nat)
         (normalizer : option Normalizer.t) (policy : option Policy.t)
         (direction : option Direction) (delta : matrix),
    let a := ArsAgent.init h e input_size output_size normalizer policy in
    let cap := Hp.episode_length (ArsAgent.hp a) in
    cap = match timestep_limit e with
          | Some l => if (l =? 0)%nat then Hp.episode_length h else l
          | None => Hp.episode_length h
          end /\
    match timestep_limit e with
    | Some l => if ((1 <=? l) && (l <=? Hp.episode_length h))%nat
                then cap = Nat.min (Hp.episode_length h) l else True
    | None => True
    end /\
    (ArsAgent.num_plays (ArsAgent.explore_run sqrtQ a direction delta) <= cap)%nat.
Proof.
  intros E H sqrtQ h e isz osz nz pol direction delta. cbv zeta.
  assert (Ecap : Hp.episode_length
                   (ArsAgent.hp (ArsAgent.init h e isz osz nz pol)) =
                 or_nat (timestep_limit e) (Hp.episode_length h)) by reflexivity.
  rewrite Ecap. repeat split.
  - destruct (timestep_limit e) as [[|l]|]; reflexivity.
  - destruct (timestep_limit e) as [[|l]|]; [exact I| |exact I].
    destruct (Nat.leb_spec (S l) (Hp.episode_length h)) as [Hle|Hgt]; [|exact I].
    change (S l = Nat.min (Hp.episode_length h) (S l)). lia.
  - unfold ArsAgent.explore_run.
    destruct (env_reset _) as [e0 state]. rewrite Ecap.
    pose proof (explore_loop_plays sqrtQ
                  (ArsAgent.policy (ArsAgent.init h e isz osz nz pol)) direction delta
                  (or_nat (timestep_limit e) (Hp.episode_length h)) e0
                  (ArsAgent.normalizer (ArsAgent.init h e isz osz nz pol))
                  state false O (Fin 0) []) as [Hp _].
    cbv zeta in Hp. lia.
Qed.

(* ================================================================== *)
(** ** Selection of the best deltas *)

Section Ranking.

Variable score : nat -> Q.
Variable key : nat -> num.

Lemma ranks_before_trans (i j k : nat) :
  ranks_before score i j -> ranks_before score j k -> ranks_before score i k.
Proof.
  unfold ranks_before. intros [H1|[H1 L1]] [H2|[H2 L2]].
  - left. lra.
  - left. lra.
  - left. lra.
  - right. split; [lra|lia].
Qed.

Lemma insert_desc_perm (x : nat) (l : list nat) :
  Permutation (insert_desc key x l) (x :: l).
Proof.
  induction l as [|y l IH]; simpl.
  - apply Permutation_refl.
  - destruct (fltb (key x) (key y)).
    + eapply perm_trans; [apply perm_skip, IH|].
      apply perm_swap.
    + apply Permutation_refl.
Qed.

Lemma insert_desc_sorted (x : nat) (l : list nat) :
  has_finite_keys score key (x :: l) ->
  Forall (fun y => (x < y)%nat) l ->
  StronglySorted (ranks_before score) l ->
  StronglySorted (ranks_before score) (insert_desc key x l).
Proof.
  intros Hkey Hidx Hsorted.
  induction l as [|y l IH]; simpl.
  - repeat constructor.
  - destruct (Hkey x (or_introl eq_refl)) as (qx & Ex & Hx).
    destruct (Hkey y (or_intror (or_introl eq_refl))) as (qy & Ey & Hy).
    inversion Hsorted as [|? ? Hs Hall]; subst.
    inversion Hidx as [|? ? Hxy Hrest]; subst.
    rewrite Ex, Ey. cbn [fltb].
    destruct (Qltb qx qy) eqn:Elt.
    + apply Qltb_true in Elt. constructor.
      * apply IH; try assumption.
        intros k [Hk|Hk]; apply Hkey; [now left|now right; right].
      * eapply Permutation_Forall.
        { apply Permutation_sym, insert_desc_perm. }
        constructor; [|exact Hall].
        left. lra.
    + apply Qltb_false in Elt.
      assert (Hxy' : ranks_before score x y).
      { destruct (Qlt_le_dec qy qx) as [Hlt|Hle].
        - left. lra.
        - right. split; [lra|exact Hxy]. }
      constructor; [exact Hsorted|].
      constructor; [exact Hxy'|].
      revert Hall. apply Forall_impl. intros z Hz.
      now apply ranks_before_trans with y.
Qed.

Lemma sorted_reverse_seq (len : nat) :
  forall start : nat,
    has_finite_keys score key (seq start len) ->
    StronglySorted (ranks_before score) (sorted_reverse key (seq start len)) /\
    Permutation (sorted_reverse key (seq start len)) (seq start len).
Proof.
  induction len as [|len IH]; intros start Hkey.
  - simpl. split; constructor.
  - change (seq start (S len)) with (start :: seq (S start) len) in *.
    change (sorted_reverse key (start :: seq (S start) len))
      with (insert_desc key start (sorted_reverse key (seq (S start) len))).
    destruct (IH (S start)) as [Hs Hp].
    { intros k Hk. apply Hkey. now right. }
    split.
    + apply insert_desc_sorted; [| |exact Hs].
      * intros k [Hk|Hk]; apply Hkey; [now left|right].
        eapply Permutation_in; [exact Hp|exact Hk].
      * apply Forall_forall. intros y Hy.
        apply (Permutation_in _ Hp) in Hy. apply in_seq in Hy. lia.
    + eapply perm_trans; [apply insert_desc_perm|].
      now apply perm_skip.
Qed.

Lemma sorted_app_split (l1 l2 : list nat) :
  StronglySorted (ranks_before score) (l1 ++ l2) ->
  StronglySorted (ranks_before score) l1 /\
  forall i j, In i l1 -> In j l2 -> ranks_before score i j.
Proof.
  induction l1 as [|a l1 IH]; simpl; intro Hs.
  - split; [constructor|]. intros i j [].
  - inversion Hs as [|? ? Hs' Hall]; subst.
    destruct (IH Hs') as [Hs1 Hcross]. split.
    + constructor; [exact Hs1|].
      apply Forall_app in Hall. apply Hall.
    + intros i j [Hi|Hi] Hj.
      * subst i. rewrite Forall_forall in Hall. apply Hall, in_or_app. now right.
      * now apply Hcross.
Qed.

End Ranking.

Lemma scores_keyed (ps ns : list Q) (nd : nat) :
  List.length ps = nd -> List.length ns = nd ->
  List.length (ArsAgent.scores (lift ps) (lift ns)) = nd /\
  forall k, In k (seq 0 nd) ->
    exists q, nth k (ArsAgent.scores (lift ps) (lift ns)) NaN = Fin q /\
              q == best_of_pair ps ns k.
Proof.
  intros Lp Ln. split.
  - unfold ArsAgent.scores. in_range.
  - intros k Hk. apply in_seq in Hk. unfold ArsAgent.scores, best_of_pair.
    rewrite (nth_zipWith _ NaN NaN) by in_range.
    unfold lift. rewrite !(nth_map_in _ 0) by lia.
    unfold py_max; cbn [fltb].
    destruct (Qltb (nth k ps 0) (nth k ns 0)) eqn:Elt.
    + apply Qltb_true in Elt. eexists. split; [reflexivity|].
      rewrite Q.max_r by lra. reflexivity.
    + apply Qltb_false in Elt. eexists. split; [reflexivity|].
      rewrite Q.max_l by lra. reflexivity.
Qed.

(** Four deltas with the scores 1, 3, 3, 2: the two best are the indices 1
    and 2, in that order. *)
Example order_with_a_tie :
  ArsAgent.order (Hp.set_episode_length example_hp 1)
                 (lift [1; 3; 0; 2]) (lift [0; 1; 3; 2]) = [1%nat]
  /\ firstn 2 (sorted_reverse (fun k => nth k (lift [1; 3; 3; 2]) NaN) (seq 0 4))
     = [1%nat; 2%nat].
Proof. vm_compute. auto. Qed.

(** C5. Given the num_deltas pairs of (finite) rewards, the indices whose
    rollouts are passed to update are the top num_best_deltas indices by
    max(r_pos, r_neg): they are distinct indices below num_deltas, listed
    by descending score with equal scores in increasing index order, and
    every index left out ranks after every index taken. *)
Theorem order_selects_top_scores_stably :
  forall (h : Hp.t) (ps ns : list Q) (deltas : list matrix) (nd : nat),
    List.length ps = nd ->
    List.length ns = nd ->
    let ord := ArsAgent.order h (lift ps) (lift ns) in
    let score := best_of_pair ps ns in
    ArsAgent.rollouts h (lift ps) (lift ns) deltas =
      map (fun k => (nth k (lift ps) NaN, nth k (lift ns) NaN, nth k deltas [])) ord /\
    List.length ord = Nat.min (Hp.num_best_deltas h) nd /\
    NoDup ord /\
    Forall (fun k => (k < nd)%nat) ord /\
    StronglySorted (ranks_before score) ord /\
    (forall i j, In i ord -> (j < nd)%nat -> ~ In j ord -> ranks_before score i j).
Proof.
  intros h ps ns deltas nd Lp Ln. cbv zeta.
  destruct (scores_keyed ps ns nd Lp Ln) as [Lsc Hkey].
  unfold ArsAgent.order. rewrite Lsc.
  set (key := fun k => nth k (ArsAgent.scores (lift ps) (lift ns)) NaN).
  set (full := sorted_reverse key (seq 0 nd)).
  destruct (sorted_reverse_seq (best_of_pair ps ns) key nd 0 Hkey) as [Hsorted Hperm].
  fold full in Hsorted, Hperm.
  assert (Hsplit := firstn_skipn (Hp.num_best_deltas h) full).
  rewrite <- Hsplit in Hsorted.
  destruct (sorted_app_split _ _ _ Hsorted) as [Hs1 Hcross].
  assert (Hnodup : NoDup full).
  { apply (Permutation_NoDup (Permutation_sym Hperm)). apply seq_NoDup. }
  split; [unfold ArsAgent.rollouts, ArsAgent.order; now rewrite Lsc|].
  split.
  { rewrite length_firstn. rewrite (Permutation_length Hperm), length_seq. reflexivity. }
  split.
  { rewrite <- Hsplit in Hnodup. now apply NoDup_app_remove_r in Hnodup. }
  split.
  { apply Forall_forall. intros k Hk.
    assert (Hin : In k full) by (rewrite <- Hsplit; apply in_or_app; now left).
    apply (Permutation_in _ Hperm) in Hin. apply in_seq in Hin. lia. }
  split; [exact Hs1|].
  intros i j Hi Hj Hnot. apply Hcross; [exact Hi|].
  assert (Hin : In j full).
  { apply (Permutation_in _ (Permutation_sym Hperm)). apply in_seq. lia. }
  rewrite <- Hsplit in Hin. apply in_app_or in Hin. destruct Hin; [contradiction|assumption].
Qed.

Lemma order_selects_top_scores_stably_witness :
  let h := Hp.set_episode_length example_hp 1 in
  let ps := [1; 3; 0; 2] in
  let ns := [0; 1; 3; 2] in
  let deltas := @nil matrix in
  let nd := 4%nat in
  let ord := ArsAgent.order h (lift ps) (lift ns) in
  let score := best_of_pair ps ns in
  ArsAgent.rollouts h (lift ps) (lift ns) deltas =
    map (fun k => (nth k (lift ps) NaN, nth k (lift ns) NaN, nth k deltas [])) ord /\
  List.length ord = Nat.min (Hp.num_best_deltas h) nd /\
  NoDup ord /\
  Forall (fun k => (k < nd)%nat) ord /\
  StronglySorted (ranks_before score) ord /\
  (forall i j, In i ord -> (j < nd)%nat -> ~ In j ord -> ranks_before score i j).
Proof.
  apply (order_selects_top_scores_stably
           (Hp.set_episode_length example_hp 1) [1; 3; 0; 2] [0; 1; 3; 2] [] 4).
  - reflexivity.
  - reflexivity.
Defined.

(* ================================================================== *)
(** ** Sampled deltas *)

Lemma randn_lifted (rs : RandomState) (r c : nat) :
  exists M : list (list Q), fst (randn rs (r, c)) = lift2 M /\ has_shape r c M.
Proof.
  exists (map (fun i => map (fun j => sample rs (cursor rs + i * c + j)) (seq 0 c)) (seq 0 r)).
  split.
  - unfold randn, lift2, lift; simpl. rewrite map_map.
    apply map_ext. intro i. now rewrite map_map.
  - split.
    + now rewrite length_map, length_seq.
    + apply Forall_map, Forall_forall. intros i _.
      now rewrite length_map, length_seq.
Qed.

Lemma sample_n_lifted (r c : nat) (k : nat) :
  forall rs : RandomState,
    exists Ds : list (list (list Q)),
      fst (Policy.sample_n k (r, c) rs) = map lift2 Ds /\
      List.length Ds = k /\
      Forall (has_shape r c) Ds.
Proof.
  induction k as [|k IH]; intro rs.
  - exists []. simpl. repeat split. constructor.
  - destruct (randn_lifted rs r c) as (M & EM & HM).
    cbn [Policy.sample_n].
    destruct (randn rs (r, c)) as [d rs1]. simpl in EM. subst d.
    destruct (IH rs1) as (Ds & EDs & LDs & HDs).
    destruct (Policy.sample_n k (r, c) rs1) as [ds rs2]. simpl in EDs. subst ds.
    exists (M :: Ds). simpl. repeat split; [now rewrite LDs|now constructor].
Qed.

Lemma has_shape_no_rows {A : Type} (c c' : nat) (m : list (list A)) :
  has_shape 0 c m -> has_shape 0 c' m.
Proof.
  intros [Hr _]. destruct m; [|discriminate]. split; [reflexivity|constructor].
Qed.

Lemma sample_deltas_lifted (p : Policy.t) (rs : RandomState) (r c : nat) :
  has_shape r c (Policy.theta p) ->
  exists Ds : list (list (list Q)),
    fst (Policy.sample_deltas p rs) = map lift2 Ds /\
    List.length Ds = Hp.num_deltas (Policy.hp p) /\
    Forall (has_shape r c) Ds.
Proof.
  intros [Hr Hc]. unfold Policy.sample_deltas.
  destruct (Policy.theta p) as [|row m] eqn:Eth.
  - simpl in Hr. subst r. unfold shape; simpl.
    destruct (sample_n_lifted 0 0 (Hp.num_deltas (Policy.hp p)) rs)
      as (Ds & EDs & LDs & HDs).
    exists Ds. repeat split; try assumption.
    revert HDs. apply Forall_impl. intros M. apply has_shape_no_rows.
  - inversion Hc; subst. unfold shape.
    apply sample_n_lifted.
Qed.

(* ================================================================== *)
(** ** The iteration keeps the policy until the update *)

Lemma length_list_set {A : Type} (k : nat) (v : A) (l : list A) :
  List.length (list_set k v l) = List.length l.
Proof.
  revert k; induction l as [|a l IH]; intros [|k]; simpl; auto.
Qed.

Section Iteration.

Context {E : Type} `{Environment E}.
Variable sqrtQ : Q -> Q.

Lemma explore_keeps_policy (a : ArsAgent.t) (direction : option Direction) (delta : matrix) :
  ArsAgent.policy (fst (ArsAgent.explore sqrtQ a direction delta)) = ArsAgent.policy a /\
  ArsAgent.hp (fst (ArsAgent.explore sqrtQ a direction delta)) = ArsAgent.hp a.
Proof.
  unfold ArsAgent.explore, ArsAgent.after_rollout; simpl. auto.
Qed.

Lemma collect_loop_keeps_policy (deltas : list matrix) (ks : list nat) :
  forall (a : ArsAgent.t) (pos neg : list num),
    let res :=
      fold_left
        (fun '(a0, pos_rewards, neg_rewards) k =>
           let '(a1, rp) := ArsAgent.explore sqrtQ a0 (Some Plus) (nth k deltas []) in
           let '(a2, rn) := ArsAgent.explore sqrtQ a1 (Some Minus) (nth k deltas []) in
           (a2, list_set k rp pos_rewards, list_set k rn neg_rewards))
        ks (a, pos, neg) in
    ArsAgent.policy (fst (fst res)) = ArsAgent.policy a /\
    ArsAgent.hp (fst (fst res)) = ArsAgent.hp a /\
    List.length (snd (fst res)) = List.length pos /\
    List.length (snd res) = List.length neg.
Proof.
  induction ks as [|k ks IH]; intros a pos neg; cbv zeta.
  - simpl. auto.
  - cbn [fold_left].
    destruct (ArsAgent.explore sqrtQ a (Some Plus) (nth k deltas [])) as [a1 rp] eqn:E1.
    destruct (ArsAgent.explore sqrtQ a1 (Some Minus) (nth k deltas [])) as [a2 rn] eqn:E2.
    specialize (IH a2 (list_set k rp pos) (list_set k rn neg)). cbv zeta in IH.
    destruct IH as (I1 & I2 & I3 & I4).
    destruct (explore_keeps_policy a (Some Plus) (nth k deltas [])) as [P1 H1].
    destruct (explore_keeps_policy a1 (Some Minus) (nth k deltas [])) as [P2 H2].
    rewrite E1 in P1, H1. rewrite E2 in P2, H2. simpl in P1, H1, P2, H2.
    rewrite I1, I2, I3, I4, !length_list_set. repeat split; congruence.
Qed.

Lemma collect_keeps_policy (a : ArsAgent.t) (deltas : list matrix) :
  let res := ArsAgent.collect sqrtQ a deltas in
  ArsAgent.policy (fst (fst res)) = ArsAgent.policy a /\
  ArsAgent.hp (fst (fst res)) = ArsAgent.hp a /\
  List.length (snd (fst res)) = Hp.num_deltas (ArsAgent.hp a) /\
  List.length (snd res) = Hp.num_deltas (ArsAgent.hp a).
Proof.
  cbv zeta. unfold ArsAgent.collect.
  destruct (collect_loop_keeps_policy deltas (seq 0 (Hp.num_deltas (ArsAgent.hp a))) a
              (repeat (Fin 0) (Hp.num_deltas (ArsAgent.hp a)))
              (repeat (Fin 0) (Hp.num_deltas (ArsAgent.hp a)))) as (I1 & I2 & I3 & I4).
  rewrite repeat_length in I3, I4. auto.
Qed.

End Iteration.

(* ================================================================== *)
(** ** Identical rewards *)

Lemma all_same_lifted (l : list num) (c : Q) :
  Forall (fun x => feq x (Fin c)) l ->
  exists qs : list Q, l = lift qs /\ Forall (fun q => q == c) qs.
Proof.
  induction 1 as [|x l Hx _ (qs & El & Hqs)].
  - exists []. split; [reflexivity|constructor].
  - destruct x as [q| | |]; simpl in Hx; try contradiction.
    exists (q :: qs). subst l. split; [reflexivity|now constructor].
Qed.

Lemma fold_fadd_all_same (c : Q) (qs : list Q) :
  Forall (fun q => q == c) qs ->
  forall a : Q,
    exists t, fold_left fadd (lift qs) (Fin a) = Fin t /\
              t == a + inject_Z (Z.of_nat (List.length qs)) * c.
Proof.
  induction 1 as [|q qs Hq _ IH]; intro a.
  - exists a. split; [reflexivity|]. simpl. ring.
  - cbn [lift map fold_left fadd].
    destruct (IH (a + q)) as (t & Et & Ht).
    exists t. split; [exact Et|].
    rewrite Ht. cbn [List.length]. rewrite inject_nat_succ, Hq. ring.
Qed.

Lemma np_mean_all_same (c : Q) (qs : list Q) :
  qs <> [] ->
  Forall (fun q => q == c) qs ->
  exists m, np_mean (lift qs) = Fin m /\ m == c.
Proof.
  intros Hne Hall. unfold np_mean, fsum.
  destruct (fold_fadd_all_same c qs Hall 0) as (t & Et & Ht).
  pose proof (inject_nat_pos _ (nonempty_length qs Hne)) as Hlen.
  rewrite Et. unfold lift, of_nat. rewrite length_map.
  rewrite fdiv_Fin by lra.
  eexists. split; [reflexivity|]. rewrite Ht. field. lra.
Qed.

Lemma np_std_all_same (sqrtQ : Q -> Q) (c : Q) (l : list num) :
  (forall q, q == 0 -> sqrtQ q == 0) ->
  l <> [] ->
  Forall (fun x => feq x (Fin c)) l ->
  exists s, np_std sqrtQ l = Fin s /\ s == 0.
Proof.
  intros Hsqrt Hne Hall.
  destruct (all_same_lifted l c Hall) as (qs & El & Hqs). subst l.
  assert (Hne' : qs <> []) by (intro E; subst qs; now apply Hne).
  unfold np_std. cbv zeta.
  destruct (np_mean_all_same c qs Hne' Hqs) as (m & Em & Hm). rewrite Em.
  assert (Edev : map (fun x => fmul (fabs (fsub x (Fin m))) (fabs (fsub x (Fin m))))
                     (lift qs) =
                 lift (map (fun q => Qabs (q + - m) * Qabs (q + - m)) qs)).
  { unfold lift. rewrite !map_map. apply map_ext. intro q. reflexivity. }
  rewrite Edev.
  assert (Hdev : Forall (fun q => q == 0)
                   (map (fun q => Qabs (q + - m) * Qabs (q + - m)) qs)).
  { apply Forall_map. revert Hqs. apply Forall_impl. intros q Hq.
    assert (E0 : q + - m == 0) by (rewrite Hq, Hm; ring).
    rewrite E0. reflexivity. }
  destruct (np_mean_all_same 0 _ (fun E => Hne' (map_eq_nil _ _ E)) Hdev) as (v & Ev & Hv).
  rewrite Ev. cbn [fsqrt].
  assert (Elt : Qltb v 0 = false) by (apply Qltb_false; lra).
  rewrite Elt. exists (sqrtQ v). split; [reflexivity|]. now apply Hsqrt.
Qed.

Lemma sorted_reverse_perm (key : nat -> num) (l : list nat) :
  Permutation (sorted_reverse key l) l.
Proof.
  induction l as [|x l IH]; simpl.
  - constructor.
  - eapply perm_trans; [apply insert_desc_perm|]. now apply perm_skip.
Qed.

Lemma order_in_range (h : Hp.t) (pos neg : list num) :
  Forall (fun k => (k < List.length (ArsAgent.scores pos neg))%nat)
         (ArsAgent.order h pos neg).
Proof.
  apply Forall_forall. intros k Hk. unfold ArsAgent.order in Hk.
  assert (Hin : In k (sorted_reverse
                        (fun k => nth k (ArsAgent.scores pos neg) NaN)
                        (seq 0 (List.length (ArsAgent.scores pos neg))))).
  { rewrite <- (firstn_skipn (Hp.num_best_deltas h)). apply in_or_app. now left. }
  apply (Permutation_in _ (sorted_reverse_perm _ _)) in Hin.
  apply in_seq in Hin. lia.
Qed.

(** C1, as stated, fails: one iteration with num_deltas = 2 and
    num_best_deltas = 1 on the stub whose reward is always 0 has
    sigma_rewards = 0, and the update is applied all the same: the weight
    goes from 0 to nan. *)
Lemma zero_rewards_iteration_changes_weights :
  let a := ArsAgent.init example_hp stub_zero None None None None in
  let deltas := fst (Policy.sample_deltas (ArsAgent.policy a) example_stream) in
  let res := ArsAgent.collect Qsqrt_grid a deltas in
  let a' := fst (fst (ArsAgent.train_step Qsqrt_grid (a, example_stream, []))) in
  Hp.num_deltas (ArsAgent.hp a) = 2%nat /\
  Hp.num_best_deltas (ArsAgent.hp a) = 1%nat /\
  Policy.theta (ArsAgent.policy a) = [[Fin 0]] /\
  snd (fst res) ++ snd res = [Fin 0; Fin 0; Fin 0; Fin 0] /\
  feqb (ArsAgent.sigma_of Qsqrt_grid (snd (fst res)) (snd res)) (Fin 0) = true /\
  Policy.theta (ArsAgent.policy a') = [[NaN]] /\
  ~ mat_feq (Policy.theta (ArsAgent.policy a')) (Policy.theta (ArsAgent.policy a)).
Proof.
  cbv zeta. repeat split; try (vm_compute; reflexivity).
  intro Hm. vm_compute in Hm.
  inversion Hm as [|? ? ? ? Hrow _]; subst.
  inversion Hrow as [|? ? ? ? Hent _]; subst.
  exact Hent.
Qed.

(* ================================================================== *)
(** ** Welford's recurrence *)

Lemma clip_min_Qmax (v : Q) :
  exists w, clip_min Normalizer.epsilon (Fin v) = Fin w /\ w == Qmax v (1 # 100).
Proof.
  unfold clip_min, Normalizer.epsilon; cbn [fltb].
  destruct (Qltb v (1 # 100)) eqn:E.
  - apply Qltb_true in E. exists (1 # 100). split; [reflexivity|].
    rewrite Q.max_r by lra. reflexivity.
  - apply Qltb_false in E. exists v. split; [reflexivity|].
    rewrite Q.max_l by lra. reflexivity.
Qed.

(** One coordinate of [observe] on finite data. *)
Lemma observe_entries (s : Normalizer.t) (x : list Q) (i : nat) (nq m md : Q) :
  (i < List.length (Normalizer.n s))%nat ->
  (i < List.length (Normalizer.mean s))%nat ->
  (i < List.length (Normalizer.mean_diff s))%nat ->
  (i < List.length x)%nat ->
  nth i (Normalizer.n s) NaN = Fin nq ->
  0 <= nq ->
  nth i (Normalizer.mean s) NaN = Fin m ->
  nth i (Normalizer.mean_diff s) NaN = Fin md ->
  let xi := nth i x 0 in
  let m' := m + (xi + - m) / (nq + 1) in
  let md' := md + (xi + - m) * (xi + - m') in
  let s' := Normalizer.observe s (lift x) in
  nth i (Normalizer.n s') NaN = Fin (nq + 1) /\
  nth i (Normalizer.mean s') NaN = Fin m' /\
  nth i (Normalizer.mean_diff s') NaN = Fin md' /\
  nth i (Normalizer.variance s') NaN = clip_min Normalizer.epsilon (Fin (md' / (nq + 1))).
Proof.
  intros Ln Lm Ld Lx En Hpos Em Ed. cbv zeta.
  assert (Hnz : ~ nq + 1 == 0) by lra.
  assert (En' : nth i (map (fun a => fadd a (Fin 1)) (Normalizer.n s)) NaN = Fin (nq + 1)).
  { rewrite (nth_map_in _ NaN) by lia. now rewrite En. }
  assert (Ex : nth i (lift x) NaN = Fin (nth i x 0)).
  { unfold lift. now rewrite (nth_map_in _ 0) by lia. }
  assert (Em' : nth i (vadd (Normalizer.mean s)
                          (vdiv (vsub (lift x) (Normalizer.mean s))
                                (map (fun a => fadd a (Fin 1)) (Normalizer.n s)))) NaN =
                Fin (m + (nth i x 0 + - m) / (nq + 1))).
  { unfold vadd, vdiv, vsub.
    rewrite (nth_zipWith _ NaN NaN) by in_range.
    rewrite (nth_zipWith _ NaN NaN) by in_range.
    rewrite (nth_zipWith _ NaN NaN) by in_range.
    rewrite En', Ex, Em. simpl fsub. rewrite fdiv_Fin by assumption. reflexivity. }
  assert (Ed' : nth i (vadd (Normalizer.mean_diff s)
                          (vmul (vsub (lift x) (Normalizer.mean s))
                                (vsub (lift x)
                                   (vadd (Normalizer.mean s)
                                      (vdiv (vsub (lift x) (Normalizer.mean s))
                                            (map (fun a => fadd a (Fin 1)) (Normalizer.n s)))))))
                      NaN =
                Fin (md + (nth i x 0 + - m) *
                          (nth i x 0 + - (m + (nth i x 0 + - m) / (nq + 1))))).
  { unfold vadd at 1. unfold vmul.
    rewrite (nth_zipWith _ NaN NaN) by in_range.
    rewrite (nth_zipWith _ NaN NaN) by in_range.
    unfold vsub at 1 2.
    rewrite (nth_zipWith _ NaN NaN) by in_range.
    rewrite (nth_zipWith _ NaN NaN) by in_range.
    rewrite Em', Ex, Em, Ed. reflexivity. }
  unfold Normalizer.observe;
    cbn [Normalizer.n Normalizer.mean Normalizer.mean_diff Normalizer.variance].
  repeat split; try assumption.
  rewrite (nth_map_in _ NaN) by in_range.
  unfold vdiv at 1.
  rewrite (nth_zipWith _ NaN NaN) by in_range.
  rewrite Ed', En'. now rewrite fdiv_Fin by assumption.
Qed.

Lemma welford_init (d : nat) : welford d [] (Normalizer.init d).
Proof.
  split.
  - unfold Normalizer.init, np_zeros; simpl. now rewrite repeat_length.
  - intros i Hi. exists 0, 0, 0, 0.
    unfold Normalizer.init, np_zeros; simpl.
    rewrite !nth_repeat_in by assumption.
    repeat split; try reflexivity. intro Hne; now elim Hne.
Qed.

Lemma welford_observe (d : nat) (xs : list (list Q)) (s : Normalizer.t) (x : list Q) :
  welford d xs s -> List.length x = d ->
  welford d (xs ++ [x]) (Normalizer.observe s (lift x)).
Proof.
  intros [(Ln & Lm & Ld & Lv) Hi] Lx. split.
  - unfold Normalizer.observe; simpl. repeat split; in_range.
  - intros i Hlt.
    destruct (Hi i Hlt) as (nq & m & md & v & En & Hn & Em & Hm & Ed & Hmd & _ & _).
    assert (Hpos : 0 <= nq) by (rewrite Hn; apply inject_nat_nonneg).
    destruct (observe_entries s x i nq m md) as (En' & Em' & Ed' & Ev');
      try assumption; try lia.
    cbv zeta in *.
    set (xi := nth i x 0) in *.
    set (m' := m + (xi + - m) / (nq + 1)) in *.
    set (md' := md + (xi + - m) * (xi + - m')) in *.
    destruct (clip_min_Qmax (md' / (nq + 1))) as (w & Ew & Hw).
    exists (nq + 1), m', md', w.
    assert (Ecol : column i (xs ++ [x]) = column i xs ++ [xi]).
    { unfold column. now rewrite map_app. }
    repeat split.
    + exact En'.
    + rewrite length_app; simpl. rewrite Nat.add_1_r, inject_nat_succ, Hn. reflexivity.
    + exact Em'.
    + rewrite Ecol, Qsum_snoc, <- Hm. unfold m'. field. lra.
    + exact Ed'.
    + rewrite Ecol, map_app, !Qsum_snoc. simpl map. rewrite Qsum_snoc.
      unfold md'. rewrite Hmd, <- Hm. unfold m'. simpl Qsum. field. lra.
    + rewrite Ev'. exact Ew.
    + intros _. exact Hw.
Qed.

Lemma welford_observe_all (d : nat) (xs : list (list Q)) :
  Forall (fun x => List.length x = d) xs ->
  welford d xs (Normalizer.observe_all (Normalizer.init d) (map lift xs)).
Proof.
  induction xs as [|x xs IH] using rev_ind; intro Hall.
  - apply welford_init.
  - apply Forall_app in Hall. destruct Hall as [Hxs Hx].
    unfold Normalizer.observe_all. rewrite map_app, fold_left_app. simpl.
    apply welford_observe.
    + apply IH, Hxs.
    + now inversion Hx.
Qed.

Lemma sum_sq_dev_expand (ys : list Q) (m : Q) :
  sum_sq_dev ys m ==
  Qsum (map (fun y => y * y) ys) - 2 * m * Qsum ys
  + inject_Z (Z.of_nat (List.length ys)) * m * m.
Proof.
  unfold sum_sq_dev. induction ys as [|y ys IH].
  - simpl. ring.
  - cbn [map Qsum fold_right List.length]. fold (Qsum (map (fun y0 => (y0 - m) * (y0 - m)) ys)).
    fold (Qsum (map (fun y0 => y0 * y0) ys)). fold (Qsum ys).
    rewrite IH, inject_nat_succ. ring.
Qed.

(** X1. After observing x1..xk (k >= 1) from a fresh normalizer, in every
    dimension mean_diff is the sum of the squared deviations of the observed
    values from their mean (Welford's recurrence is exact), and variance is
    the population variance mean_diff / k floored at 0.01. *)
Theorem observe_all_mean_diff_is_squared_deviation :
  forall (d : nat) (xs : list (list Q)) (i : nat),
    xs <> [] ->
    Forall (fun x => List.length x = d) xs ->
    (i < d)%nat ->
    let s := Normalizer.observe_all (Normalizer.init d) (map lift xs) in
    exists m md v,
      nth i (Normalizer.mean s) NaN = Fin m /\
      m == Qmean (column i xs) /\
      nth i (Normalizer.mean_diff s) NaN = Fin md /\
      md == sum_sq_dev (column i xs) m /\
      nth i (Normalizer.variance s) NaN = Fin v /\
      v == Qmax (md / inject_Z (Z.of_nat (List.length xs))) (1 # 100).
Proof.
  intros d xs i Hne Hall Hi. cbv zeta.
  destruct (welford_observe_all d xs Hall) as [_ Hw].
  destruct (Hw i Hi) as (nq & m & md & v & _ & Hn & Em & Hm & Ed & Hmd & Ev & Hv).
  pose proof (inject_nat_pos _ (nonempty_length xs Hne)) as Hk.
  assert (Lcol : List.length (column i xs) = List.length xs)
    by (unfold column; apply length_map).
  exists m, md, v. repeat split; try assumption.
  - unfold Qmean. rewrite Lcol, <- Hm, Hn. field. lra.
  - rewrite sum_sq_dev_expand, Hmd, Lcol.
    rewrite <- Hn, <- Hm. ring.
  - rewrite (Hv Hne), Hn. reflexivity.
Qed.

Lemma observe_all_mean_diff_is_squared_deviation_witness :
  let s := Normalizer.observe_all (Normalizer.init 2) (map lift [[1; 2]; [3; 4]]) in
  exists m md v,
    nth 1 (Normalizer.mean s) NaN = Fin m /\
    m == Qmean (column 1 [[1; 2]; [3; 4]]) /\
    nth 1 (Normalizer.mean_diff s) NaN = Fin md /\
    md == sum_sq_dev (column 1 [[1; 2]; [3; 4]]) m /\
    nth 1 (Normalizer.variance s) NaN = Fin v /\
    v == Qmax (md / inject_Z (Z.of_nat (List.length [[1; 2]; [3; 4]]))) (1 # 100).
Proof.
  apply (observe_all_mean_diff_is_squared_deviation 2 [[1; 2]; [3; 4]] 1).
  - discriminate.
  - repeat constructor.
  - lia.
Defined.



(* ================================================================== *)
(** ** What a rollout does to the normalizer, and how long it runs *)

Section RolloutFacts.

Context {E : Type} `{Environment E}.
Variable sqrtQ : Q -> Q.

Lemma explore_loop_count (p : Policy.t) (direction : option Direction) (delta : matrix) :
  forall (remaining : nat) (e : E) (nz : Normalizer.t) (state : vec) (done : bool)
         (plays : nat) (total : num) (seen : list num) (k0 : nat),
    Forall (fun c => feq c (of_nat k0)) (Normalizer.n nz) ->
    let r := ArsAgent.explore_loop sqrtQ p direction delta remaining e nz state done
               plays total seen in
    Forall (fun c => feq c (of_nat (k0 + (ArsAgent.num_plays r - plays))))
           (Normalizer.n (ArsAgent.r_normalizer r)).
Proof.
  induction remaining as [|remaining IH];
    intros e nz state done plays total seen k0 Hk0; cbv zeta.
  - simpl. now rewrite Nat.sub_diag, Nat.add_0_r.
  - simpl. destruct done.
    + simpl. now rewrite Nat.sub_diag, Nat.add_0_r.
    + destruct (env_step e _) as [[[e' state2] reward] done'].
      pose proof (explore_loop_plays sqrtQ p direction delta remaining e'
                    (Normalizer.observe nz state) state2 done' (S plays)
                    (fadd total (py_max (py_min reward (Fin 1)) (Fin (-1))))
                    (seen ++ [reward])) as [Hplays _].
      cbv zeta in Hplays.
      specialize (IH e' (Normalizer.observe nz state) state2 done' (S plays)
                    (fadd total (py_max (py_min reward (Fin 1)) (Fin (-1))))
                    (seen ++ [reward]) (S k0)).
      cbv zeta in IH.
      match type of IH with
      | _ -> Forall _ (Normalizer.n (ArsAgent.r_normalizer ?r)) =>
          replace (k0 + (ArsAgent.num_plays r - plays))%nat
            with (S k0 + (ArsAgent.num_plays r - S plays))%nat by lia
      end.
      apply IH. simpl. apply Forall_map. revert Hk0. apply Forall_impl.
      intros c Hc. now apply count_step.
Qed.

Lemma explore_loop_never_done (Hnever : never_done E)
    (p : Policy.t) (direction : option Direction) (delta : matrix) :
  forall (remaining : nat) (e : E) (nz : Normalizer.t) (state : vec)
         (plays : nat) (total : num) (seen : list num),
    ArsAgent.num_plays
      (ArsAgent.explore_loop sqrtQ p direction delta remaining e nz state false
         plays total seen) = (plays + remaining)%nat.
Proof.
  induction remaining as [|remaining IH]; intros e nz state plays total seen.
  - simpl. lia.
  - simpl.
    pose proof (Hnever e (Policy.evaluate p
                  (Normalizer.normalize sqrtQ (Normalizer.observe nz state) state)
                  delta direction)) as Hd.
    destruct (env_step e _) as [[[e' state2] reward] done']. simpl in Hd. subst done'.
    rewrite IH. lia.
Qed.

Lemma explore_loop_done (p : Policy.t) (direction : option Direction) (delta : matrix)
    (remaining : nat) (e : E) (nz : Normalizer.t) (state : vec)
    (plays : nat) (total : num) (seen : list num) :
  ArsAgent.num_plays
    (ArsAgent.explore_loop sqrtQ p direction delta remaining e nz state true
       plays total seen) = plays.
Proof.
  destruct remaining; reflexivity.
Qed.

End RolloutFacts.

Lemma Qsum_clamp_bounds (qs : list Q) :
  - inject_Z (Z.of_nat (List.length qs)) <= Qsum (map Qclamp qs)
  <= inject_Z (Z.of_nat (List.length qs)).
Proof.
  induction qs as [|q qs IH].
  - simpl. split; apply Qle_refl.
  - cbn [map List.length]. rewrite inject_nat_succ.
    change (Qsum (Qclamp q :: map Qclamp qs)) with (Qclamp q + Qsum (map Qclamp qs)).
    pose proof (Qclamp_bounds q). lra.
Qed.

(** X3. Every step of every rollout, with or without a direction, is
    observed by the normalizer: when the count is k in every dimension
    before explore, it is k + num_plays in every dimension afterwards. *)
Theorem explore_counts_every_step :
  forall (E : Type) (H : Environment E) (sqrtQ : Q -> Q) (a : ArsAgent.t)
         (direction : option Direction) (delta : matrix) (k0 : nat),
    Forall (fun c => feq c (of_nat k0)) (Normalizer.n (ArsAgent.normalizer a)) ->
    let r := ArsAgent.explore_run sqrtQ a direction delta in
    ArsAgent.normalizer (fst (ArsAgent.explore sqrtQ a direction delta)) =
      ArsAgent.r_normalizer r /\
    Forall (fun c => feq c (of_nat (k0 + ArsAgent.num_plays r)))
           (Normalizer.n (ArsAgent.r_normalizer r)).
Proof.
  intros E H sqrtQ a direction delta k0 Hk0. cbv zeta. split; [reflexivity|].
  unfold ArsAgent.explore_run. destruct (env_reset (ArsAgent.env a)) as [e0 state].
  pose proof (explore_loop_count sqrtQ (ArsAgent.policy a) direction delta
                (Hp.episode_length (ArsAgent.hp a)) e0 (ArsAgent.normalizer a)
                state false O (Fin 0) [] k0 Hk0) as Hc.
  cbv zeta in Hc. now rewrite Nat.sub_0_r in Hc.
Qed.

Lemma explore_counts_every_step_witness :
  let a := ArsAgent.init example_hp (stub_five 3) None None None None in
  let r := ArsAgent.explore_run Qsqrt_grid a None [] in
  ArsAgent.normalizer (fst (ArsAgent.explore Qsqrt_grid a None [])) =
    ArsAgent.r_normalizer r /\
  Forall (fun c => feq c (of_nat (0 + ArsAgent.num_plays r)))
         (Normalizer.n (ArsAgent.r_normalizer r)).
Proof.
  apply (explore_counts_every_step Stub Stub_Environment Qsqrt_grid
           (ArsAgent.init example_hp (stub_five 3) None None None None) None [] 0).
  repeat constructor.
Defined.

Lemma explore_reward_bounds :
  forall (E : Type) (H : Environment E) (sqrtQ : Q -> Q) (a : ArsAgent.t)
         (direction : option Direction) (delta : matrix),
    finite_rewards E ->
    let r := ArsAgent.explore_run sqrtQ a direction delta in
    let cap := Hp.episode_length (ArsAgent.hp a) in
    exists t : Q,
      snd (ArsAgent.explore sqrtQ a direction delta) = Fin t /\
      - inject_Z (Z.of_nat (ArsAgent.num_plays r)) <= t
        <= inject_Z (Z.of_nat (ArsAgent.num_plays r)) /\
      (ArsAgent.num_plays r <= cap)%nat /\
      - inject_Z (Z.of_nat cap) <= t <= inject_Z (Z.of_nat cap).
Proof.
  intros E H sqrtQ a direction delta Hfin. cbv zeta.
  unfold ArsAgent.explore, ArsAgent.explore_run.
  destruct (env_reset (ArsAgent.env a)) as [e0 state]. cbn [snd].
  destruct (explore_loop_sum sqrtQ Hfin (ArsAgent.policy a) direction delta
              (Hp.episode_length (ArsAgent.hp a)) e0 (ArsAgent.normalizer a)
              state false O 0 []) as (qs & t & Er & Et & Ht).
  destruct (explore_loop_plays sqrtQ (ArsAgent.policy a) direction delta
              (Hp.episode_length (ArsAgent.hp a)) e0 (ArsAgent.normalizer a)
              state false O (Fin 0) []) as [Hcap Hlen].
  change (lift []) with (@nil num) in Er, Et.
  rewrite Er in Hlen. unfold lift in Hlen. rewrite length_map in Hlen.
  simpl in Hlen. rewrite Nat.sub_0_r in Hlen.
  pose proof (Qsum_clamp_bounds qs) as Hb. rewrite Hlen in Hb.
  exists t. split; [exact Et|].
  assert (Hle : inject_Z (Z.of_nat (ArsAgent.num_plays
                   (ArsAgent.explore_loop sqrtQ (ArsAgent.policy a) direction delta
                      (Hp.episode_length (ArsAgent.hp a)) e0 (ArsAgent.normalizer a)
                      state false 0 (Fin 0) [])))
                <= inject_Z (Z.of_nat (Hp.episode_length (ArsAgent.hp a)))).
  { rewrite <- Zle_Qle. lia. }
  split; [|split]; [| lia |]; rewrite Ht; lra.
Qed.

(** X4. On an environment with finite rewards the value explore returns
    is a finite number between -num_plays and num_plays, hence between
    -episode_length and episode_length. *)
Theorem explore_reward_is_bounded :
  forall (E : Type) (H : Environment E) (sqrtQ : Q -> Q) (a : ArsAgent.t)
         (direction : option Direction) (delta : matrix),
    finite_rewards E ->
    let r := ArsAgent.explore_run sqrtQ a direction delta in
    let cap := Hp.episode_length (ArsAgent.hp a) in
    exists t : Q,
      snd (ArsAgent.explore sqrtQ a direction delta) = Fin t /\
      - inject_Z (Z.of_nat (ArsAgent.num_plays r)) <= t
        <= inject_Z (Z.of_nat (ArsAgent.num_plays r)) /\
      (ArsAgent.num_plays r <= cap)%nat /\
      - inject_Z (Z.of_nat cap) <= t <= inject_Z (Z.of_nat cap).
Proof.
  exact explore_reward_bounds.
Qed.

Lemma explore_reward_is_bounded_witness :
  let a := ArsAgent.init example_hp (stub_five 3) None None None None in
  let r := ArsAgent.explore_run Qsqrt_grid a None [] in
  let cap := Hp.episode_length (ArsAgent.hp a) in
  exists t : Q,
    snd (ArsAgent.explore Qsqrt_grid a None []) = Fin t /\
    - inject_Z (Z.of_nat (ArsAgent.num_plays r)) <= t
      <= inject_Z (Z.of_nat (ArsAgent.num_plays r)) /\
    (ArsAgent.num_plays r <= cap)%nat /\
    - inject_Z (Z.of_nat cap) <= t <= inject_Z (Z.of_nat cap).
Proof.
  apply (explore_reward_is_bounded Stub Stub_Environment Qsqrt_grid
           (ArsAgent.init example_hp (stub_five 3) None None None None) None []).
  exact stub_finite_rewards.
Defined.

(** X5. explore stops on the step cap or on the environment's done flag,
    whichever comes first: an environment that never signals done is played
    for exactly episode_length steps. *)
Theorem explore_runs_to_the_cap_when_never_done :
  forall (E : Type) (H : Environment E) (sqrtQ : Q -> Q) (a : ArsAgent.t)
         (direction : option Direction) (delta : matrix),
    never_done E ->
    ArsAgent.num_plays (ArsAgent.explore_run sqrtQ a direction delta) =
      Hp.episode_length (ArsAgent.hp a).
Proof.
  intros E H sqrtQ a direction delta Hnever.
  unfold ArsAgent.explore_run. destruct (env_reset (ArsAgent.env a)) as [e0 state].
  now rewrite explore_loop_never_done.
Qed.

Lemma explore_runs_to_the_cap_when_never_done_witness :
  ArsAgent.num_plays
    (ArsAgent.explore_run Qsqrt_grid
       (ArsAgent.init example_hp (constant_env false) None None None None) None []) =
  Hp.episode_length
    (ArsAgent.hp (ArsAgent.init example_hp (constant_env false) None None None None)).
Proof.
  apply (explore_runs_to_the_cap_when_never_done (Constant false)
           (Constant_Environment false) Qsqrt_grid).
  intros e action. reflexivity.
Defined.

(** X6. An environment that signals done at every step is played for
    exactly one step per rollout, whatever episode_length >= 1 is. *)
Theorem explore_stops_at_done :
  forall (E : Type) (H : Environment E) (sqrtQ : Q -> Q) (a : ArsAgent.t)
         (direction : option Direction) (delta : matrix),
    always_done E ->
    (1 <= Hp.episode_length (ArsAgent.hp a))%nat ->
    ArsAgent.num_plays (ArsAgent.explore_run sqrtQ a direction delta) = 1%nat.
Proof.
  intros E H sqrtQ a direction delta Halways Hcap.
  unfold ArsAgent.explore_run. destruct (env_reset (ArsAgent.env a)) as [e0 state].
  destruct (Hp.episode_length (ArsAgent.hp a)) as [|cap]; [lia|].
  cbn [ArsAgent.explore_loop].
  pose proof (Halways e0 (Policy.evaluate (ArsAgent.policy a)
                (Normalizer.normalize sqrtQ
                   (Normalizer.observe (ArsAgent.normalizer a) state) state)
                delta direction)) as Hd.
  destruct (env_step e0 _) as [[[e' state2] reward] done']. simpl in Hd. subst done'.
  apply explore_loop_done.
Qed.

Lemma explore_stops_at_done_witness :
  ArsAgent.num_plays
    (ArsAgent.explore_run Qsqrt_grid
       (ArsAgent.init example_hp (constant_env true) None None None None) None []) = 1%nat.
Proof.
  apply (explore_stops_at_done (Constant true) (Constant_Environment true) Qsqrt_grid).
  - intros e action. reflexivity.
  - simpl; lia.
Defined.

(* ================================================================== *)
(** ** The draws behind the sampled deltas *)

Lemma randn_entry (rs : RandomState) (r c i j : nat) :
  (i < r)%nat -> (j < c)%nat ->
  nth j (nth i (fst (randn rs (r, c))) []) NaN =
  Fin (sample rs (cursor rs + i * c + j)).
Proof.
  intros Hi Hj. unfold randn; cbn [fst].
  rewrite (nth_map_in _ O) by (rewrite length_seq; lia).
  rewrite (nth_map_in _ O) by (rewrite length_seq; lia).
  now rewrite !seq_nth by lia.
Qed.

Lemma sample_n_draws (r c : nat) (k : nat) :
  forall rs : RandomState,
    let res := Policy.sample_n k (r, c) rs in
    List.length (fst res) = k /\
    cursor (snd res) = (cursor rs + k * (r * c))%nat /\
    sample (snd res) = sample rs /\
    forall kk i j, (kk < k)%nat -> (i < r)%nat -> (j < c)%nat ->
      nth j (nth i (nth kk (fst res) []) []) NaN =
      Fin (sample rs (cursor rs + kk * (r * c) + i * c + j)).
Proof.
  induction k as [|k IH]; intro rs; cbv zeta.
  - simpl. repeat split; lia.
  - cbn [Policy.sample_n].
    pose proof (randn_entry rs r c) as Hentry.
    destruct (randn rs (r, c)) as [d rs1] eqn:Ernd.
    assert (Ecur : cursor rs1 = (cursor rs + r * c)%nat)
      by (unfold randn in Ernd; inversion Ernd; reflexivity).
    assert (Esam : sample rs1 = sample rs)
      by (unfold randn in Ernd; inversion Ernd; reflexivity).
    specialize (IH rs1). cbv zeta in IH.
    destruct (Policy.sample_n k (r, c) rs1) as [ds rs2].
    cbn [fst snd] in *. destruct IH as (Hlen & Hcur & Hsam & Hnth).
    repeat split.
    + simpl. now rewrite Hlen.
    + rewrite Hcur, Ecur. lia.
    + now rewrite Hsam.
    + intros [|kk] i j Hkk Hi Hj; cbn [nth].
      * rewrite Hentry by assumption. f_equal. f_equal. lia.
      * rewrite Hnth by (try assumption; lia). rewrite Esam, Ecur. f_equal. f_equal. lia.
Qed.

(** X7. sample_deltas returns exactly num_deltas matrices of the shape of
    theta, filled row by row with consecutive draws of the random stream:
    entry (i, j) of the k-th delta is the draw number
    cursor + k*rows*cols + i*cols + j, and the stream is left advanced by
    num_deltas*rows*cols draws, so that the next call continues where this
    one stopped. *)
Theorem sample_deltas_consumes_consecutive_draws :
  forall (p : Policy.t) (rs : RandomState) (r c : nat),
    has_shape r c (Policy.theta p) ->
    let deltas := fst (Policy.sample_deltas p rs) in
    let rs' := snd (Policy.sample_deltas p rs) in
    let nd := Hp.num_deltas (Policy.hp p) in
    List.length deltas = nd /\
    (forall k i j, (k < nd)%nat -> (i < r)%nat -> (j < c)%nat ->
       nth j (nth i (nth k deltas []) []) NaN =
       Fin (sample rs (cursor rs + k * (r * c) + i * c + j))) /\
    cursor rs' = (cursor rs + nd * (r * c))%nat /\
    sample rs' = sample rs.
Proof.
  intros p rs r c [Hr Hc]. cbv zeta. unfold Policy.sample_deltas.
  destruct (Policy.theta p) as [|row m] eqn:Eth.
  - simpl in Hr. subst r. unfold shape; cbn [List.length].
    destruct (sample_n_draws 0 0 (Hp.num_deltas (Policy.hp p)) rs)
      as (Hlen & Hcur & Hsam & _).
    repeat split; try assumption.
    intros k i j _ Hi. lia.
  - inversion Hc; subst. unfold shape.
    destruct (sample_n_draws (List.length (row :: m)) (List.length row)
                (Hp.num_deltas (Policy.hp p)) rs) as (Hlen & Hcur & Hsam & Hnth).
    repeat split; assumption.
Qed.

Lemma sample_deltas_consumes_consecutive_draws_witness :
  let p := {| Policy.theta := lift2 [[1; 2; 3]; [4; 5; 6]]; Policy.hp := example_hp |} in
  let rs := example_stream in
  let deltas := fst (Policy.sample_deltas p rs) in
  let rs' := snd (Policy.sample_deltas p rs) in
  let nd := Hp.num_deltas (Policy.hp p) in
  List.length deltas = nd /\
  (forall k i j, (k < nd)%nat -> (i < 2)%nat -> (j < 3)%nat ->
     nth j (nth i (nth k deltas []) []) NaN =
     Fin (sample rs (cursor rs + k * (2 * 3) + i * 3 + j))) /\
  cursor rs' = (cursor rs + nd * (2 * 3))%nat /\
  sample rs' = sample rs.
Proof.
  apply (sample_deltas_consumes_consecutive_draws
           {| Policy.theta := lift2 [[1; 2; 3]; [4; 5; 6]]; Policy.hp := example_hp |}
           example_stream 2 3).
  split; [reflexivity|repeat constructor].
Defined.

(* ================================================================== *)
(** ** Perturbed evaluation on finite data *)

Lemma fold_fadd_lift (l : list Q) :
  forall a : Q, fold_left fadd (lift l) (Fin a) = Fin (fold_left Qplus l a).
Proof.
  induction l as [|q l IH]; intro a; simpl; [reflexivity|]. apply IH.
Qed.

Lemma dot_lift (a x : list Q) : dot (lift a) (lift x) = Fin (Qdot a x).
Proof.
  unfold dot, fsum, vmul, Qdot, lift.
  rewrite zipWith_map, <- (map_zipWith Fin Qmult).
  apply (fold_fadd_lift (zipWith Qmult a x) 0).
Qed.

Lemma mat_vec_lift (A : list (list Q)) (x : list Q) :
  mat_vec (lift2 A) (lift x) = lift (map (fun row => Qdot row x) A).
Proof.
  unfold mat_vec, lift2. unfold lift at 3. rewrite !map_map.
  apply map_ext. intro row. apply dot_lift.
Qed.

Lemma mat_sub_lift2 (A B : list (list Q)) :
  mat_sub (lift2 A) (lift2 B) = lift2 (zipWith (zipWith (fun a b => a + - b)) A B).
Proof.
  unfold mat_sub, lift2. rewrite zipWith_map, map_zipWith.
  revert B. induction A as [|a A IH]; intros [|b B]; simpl; try reflexivity.
  rewrite IH. f_equal. unfold vsub, lift. now rewrite zipWith_map, map_zipWith.
Qed.

Lemma fold_Qplus_sum (l : list Q) : forall a : Q, fold_left Qplus l a == a + Qsum l.
Proof.
  induction l as [|q l IH]; intro a; simpl.
  - ring.
  - rewrite IH. ring.
Qed.

Lemma Qsum_affine (c : Q) (op : Q -> Q -> Q) (sgn : Q) :
  (forall a b, op a (c * b) == a + sgn * (c * b)) ->
  forall (a d x : list Q),
    List.length a = List.length x -> List.length d = List.length x ->
    Qsum (zipWith Qmult (zipWith op a (map (Qmult c) d)) x) ==
    Qsum (zipWith Qmult a x) + sgn * (c * Qsum (zipWith Qmult d x)).
Proof.
  intros Hop. induction a as [|a0 a IH]; intros [|d0 d] [|x0 x] La Ld;
    simpl in *; try discriminate; try ring.
  rewrite Hop, (IH d x (eq_add_S _ _ La) (eq_add_S _ _ Ld)). ring.
Qed.

Lemma Qdot_affine (c : Q) (op : Q -> Q -> Q) (sgn : Q) :
  (forall a b, op a (c * b) == a + sgn * (c * b)) ->
  forall (a d x : list Q),
    List.length a = List.length x -> List.length d = List.length x ->
    Qdot (zipWith op a (map (Qmult c) d)) x == Qdot a x + sgn * (c * Qdot d x).
Proof.
  intros Hop a d x La Ld. unfold Qdot. rewrite !fold_Qplus_sum.
  rewrite (Qsum_affine c op sgn Hop a d x La Ld). ring.
Qed.

Lemma lift_feq (l l' : list Q) : Forall2 Qeq l l' -> vec_feq (lift l) (lift l').
Proof.
  induction 1; simpl; constructor; auto.
Qed.

(** X8. In exact arithmetic (rounding aside), on finite data the two
    perturbed evaluations are symmetric around the unperturbed one:
    evaluate(+) + evaluate(-) is twice evaluate(None), and
    evaluate(+) - evaluate(-) is 2 * noise * (delta . input). *)
Theorem evaluate_directions_are_symmetric :
  forall (p : Policy.t) (A D : list (list Q)) (x : list Q) (nz : Q) (r c : nat),
    Policy.theta p = lift2 A ->
    has_shape r c A ->
    has_shape r c D ->
    List.length x = c ->
    Hp.noise (Policy.hp p) = Fin nz ->
    let plus := Policy.evaluate p (lift x) (lift2 D) (Some Plus) in
    let minus := Policy.evaluate p (lift x) (lift2 D) (Some Minus) in
    let plain := Policy.evaluate p (lift x) (lift2 D) None in
    List.length plain = r /\
    vec_feq (vadd plus minus) (map (fmul (Fin 2)) plain) /\
    vec_feq (vsub plus minus)
            (map (fmul (Fin (2 * nz))) (mat_vec (lift2 D) (lift x))).
Proof.
  intros p A D x nz r c Eth HA HD Lx Hnoise. cbv zeta.
  unfold Policy.evaluate. rewrite Eth, Hnoise.
  rewrite mat_scale_lift2, mat_add_lift2, mat_sub_lift2, !mat_vec_lift.
  assert (Hrows : Forall2 (fun a d => List.length a = c /\ List.length d = c) A D).
  { clear Eth. destruct HA as [LA HA], HD as [LD HD]. subst r.
    revert D LD HD. induction HA as [|a A Ha _ IH]; intros [|d D] LD HD;
      simpl in *; try discriminate; constructor.
    - inversion HD; subst. auto.
    - inversion HD; subst. apply IH; [lia|assumption]. }
  split.
  { unfold lift. rewrite !length_map. apply HA. }
  split.
  - unfold vadd, lift. rewrite zipWith_map, <- (map_zipWith Fin Qplus), map_map.
    change (fun x0 : Q => fmul (Fin 2) (Fin x0)) with (fun x0 : Q => Fin (2 * x0)).
    rewrite <- (map_map (Qmult 2) Fin). apply lift_feq.
    clear HA HD Eth. induction Hrows as [|a d A D [La Ld] _ IH]; simpl; constructor.
    + rewrite (Qdot_affine nz Qplus 1), (Qdot_affine nz (fun u v => u + - v) (-1));
        try congruence; intros; ring.
    + exact IH.
  - unfold vsub, lift. rewrite zipWith_map, !map_map.
    change (fun x0 : list Q => fmul (Fin (2 * nz)) (Fin (Qdot x0 x)))
      with (fun x0 : list Q => Fin (2 * nz * Qdot x0 x)).
    rewrite <- (map_zipWith Fin (fun u v => u + - v)).
    rewrite <- (map_map (fun x0 => 2 * nz * Qdot x0 x) Fin). apply lift_feq.
    clear HA HD Eth. induction Hrows as [|a d A D [La Ld] _ IH]; simpl; constructor.
    + rewrite (Qdot_affine nz Qplus 1), (Qdot_affine nz (fun u v => u + - v) (-1));
        try congruence; intros; ring.
    + exact IH.
Qed.

Lemma evaluate_directions_are_symmetric_witness :
  let p := {| Policy.theta := lift2 [[1; 2; 3]; [4; 5; 6]]; Policy.hp := example_hp |} in
  let D := [[1; 0; 1]; [0 - 1; 2; 0]] in
  let x := [1; 1; 2] in
  let plus := Policy.evaluate p (lift x) (lift2 D) (Some Plus) in
  let minus := Policy.evaluate p (lift x) (lift2 D) (Some Minus) in
  let plain := Policy.evaluate p (lift x) (lift2 D) None in
  List.length plain = 2%nat /\
  vec_feq (vadd plus minus) (map (fmul (Fin 2)) plain) /\
  vec_feq (vsub plus minus)
          (map (fmul (Fin (2 * (3 # 100)))) (mat_vec (lift2 D) (lift x))).
Proof.
  apply (evaluate_directions_are_symmetric
           {| Policy.theta := lift2 [[1; 2; 3]; [4; 5; 6]]; Policy.hp := example_hp |}
           [[1; 2; 3]; [4; 5; 6]] [[1; 0; 1]; [0 - 1; 2; 0]] [1; 1; 2] (3 # 100) 2 3).
  - reflexivity.
  - split; [reflexivity|repeat constructor].
  - split; [reflexivity|repeat constructor].
  - reflexivity.
  - reflexivity.
Defined.

(* ================================================================== *)
(** ** The update does not depend on the order of the rollouts *)

Lemma update_theta_lifted (p : Policy.t) (rs : list (Q * Q * list (list Q)))
    (sigma : num) (r c : nat) :
  has_shape r c (Policy.theta p) ->
  Forall (fun t => has_shape r c (snd t)) rs ->
  exists B : list (list Q),
    has_shape r c B /\
    (forall i j, (i < r)%nat -> (j < c)%nat ->
       nth j (nth i B []) 0 == step_entry rs i j) /\
    Policy.theta (Policy.update p (lift_rollouts rs) sigma) =
    mat_add (Policy.theta p)
      (mat_scale (fdiv (Hp.alpha (Policy.hp p))
                       (fmul (of_nat (Hp.num_best_deltas (Policy.hp p))) sigma))
                 (lift2 B)).
Proof.
  intros Hth Hrs.
  destruct (update_step_lifted r c rs (repeat (repeat 0 c) r)
              (has_shape_repeat 0 r c) Hrs) as (B & HB & EB & Hent).
  exists B. split; [exact HB|]. split.
  - intros i j Hi Hj. rewrite (Hent i j Hi Hj).
    rewrite (nth_repeat_in (repeat 0 c) [] r i Hi), (nth_repeat_in 0 0 c j Hj). ring.
  - unfold Policy.update, Policy.update_step; cbn [Policy.theta].
    rewrite (np_zeros2_shape r c) by assumption. now rewrite EB.
Qed.

Lemma step_entry_perm (rs rs' : list (Q * Q * list (list Q))) (i j : nat) :
  Permutation rs rs' -> step_entry rs i j == step_entry rs' i j.
Proof.
  unfold step_entry. induction 1 as [|t l l' _ IH|t t' l|l l' l'' _ IH1 _ IH2]; simpl.
  - reflexivity.
  - rewrite IH. reflexivity.
  - ring.
  - now rewrite IH1.
Qed.

Lemma scaled_row_feq (coef : num) :
  forall (row : vec) (b b' : list Q),
    Forall2 Qeq b b' ->
    vec_feq (vadd row (map (fmul coef) (lift b))) (vadd row (map (fmul coef) (lift b'))).
Proof.
  unfold vadd, lift. intros row b b' Hb. revert row.
  induction Hb as [|q q' b b' Hq _ IH]; intros [|t row]; simpl; try constructor.
  - apply fadd_feq; [apply feq_refl|]. apply fmul_feq; [apply feq_refl|exact Hq].
  - apply IH.
Qed.

Lemma scaled_add_feq (coef : num) :
  forall (m : matrix) (B B' : list (list Q)),
    Forall2 (Forall2 Qeq) B B' ->
    mat_feq (mat_add m (mat_scale coef (lift2 B)))
            (mat_add m (mat_scale coef (lift2 B'))).
Proof.
  unfold mat_add, mat_scale, lift2. intros m B B' HB. revert m.
  induction HB as [|b b' B B' Hb _ IH]; intros [|row m]; simpl; try constructor.
  - now apply scaled_row_feq.
  - apply IH.
Qed.

(** X9. In exact arithmetic (rounding aside), the weights after update
    do not depend on the order in which the rollouts are listed: two rollout
    lists that are permutations of each other (finite rewards and deltas of
    the weights' shape) give the same weights, for every sigma_rewards. *)
Theorem update_ignores_rollout_order :
  forall (p : Policy.t) (rs rs' : list (Q * Q * list (list Q))) (sigma : num)
         (r c : nat),
    has_shape r c (Policy.theta p) ->
    Forall (fun t => has_shape r c (snd t)) rs ->
    Permutation rs rs' ->
    mat_feq (Policy.theta (Policy.update p (lift_rollouts rs) sigma))
            (Policy.theta (Policy.update p (lift_rollouts rs') sigma)).
Proof.
  intros p rs rs' sigma r c Hth Hrs Hperm.
  assert (Hrs' : Forall (fun t => has_shape r c (snd t)) rs')
    by (eapply Permutation_Forall; eassumption).
  destruct (update_theta_lifted p rs sigma r c Hth Hrs) as (B & HB & Hent & E).
  destruct (update_theta_lifted p rs' sigma r c Hth Hrs') as (B' & HB' & Hent' & E').
  rewrite E, E'. apply scaled_add_feq.
  apply (Forall2_of_nth (Forall2 Qeq) [] []).
  - destruct HB, HB'. lia.
  - intros i Hi. assert (Hi' : (i < r)%nat) by (destruct HB; lia).
    apply (Forall2_of_nth Qeq 0 0).
    + now rewrite !(has_shape_row r c) by assumption.
    + intros j Hj. rewrite (has_shape_row r c) in Hj by assumption.
      rewrite (Hent i j Hi' Hj), (Hent' i j Hi' Hj). now apply step_entry_perm.
Qed.

Lemma update_ignores_rollout_order_witness :
  let p := {| Policy.theta := lift2 [[1; 2]]; Policy.hp := example_hp |} in
  let rs := [(1, 0, [[1; 1]]); (0, 2, [[3; 0 - 1]])] in
  let rs' := [(0, 2, [[3; 0 - 1]]); (1, 0, [[1; 1]])] in
  mat_feq (Policy.theta (Policy.update p (lift_rollouts rs) (Fin 1)))
          (Policy.theta (Policy.update p (lift_rollouts rs') (Fin 1))).
Proof.
  apply (update_ignores_rollout_order
           {| Policy.theta := lift2 [[1; 2]]; Policy.hp := example_hp |}
           [(1, 0, [[1; 1]]); (0, 2, [[3; 0 - 1]])]
           [(0, 2, [[3; 0 - 1]]); (1, 0, [[1; 1]])] (Fin 1) 1 2).
  - split; [reflexivity|repeat constructor].
  - repeat constructor.
  - apply perm_swap.
Defined.

(* ================================================================== *)
(** ** How many indices are selected *)

Lemma length_order (h : Hp.t) (pos neg : list num) :
  List.length (ArsAgent.order h pos neg) =
  Nat.min (Hp.num_best_deltas h) (List.length (ArsAgent.scores pos neg)).
Proof.
  unfold ArsAgent.order.
  now rewrite length_firstn, (Permutation_length (sorted_reverse_perm _ _)), length_seq.
Qed.

(** X10. When num_best_deltas >= num_deltas (the default 20/20), every
    delta is selected: the indices passed on are a permutation of
    0..num_deltas-1, whatever the rewards are. *)
Theorem order_takes_every_index_when_all_are_best :
  forall (h : Hp.t) (pos neg : list num) (nd : nat),
    List.length pos = nd ->
    List.length neg = nd ->
    (nd <= Hp.num_best_deltas h)%nat ->
    Permutation (ArsAgent.order h pos neg) (seq 0 nd).
Proof.
  intros h pos neg nd Lp Ln Hnb.
  assert (Lsc : List.length (ArsAgent.scores pos neg) = nd)
    by (unfold ArsAgent.scores; rewrite length_zipWith; lia).
  unfold ArsAgent.order. rewrite Lsc.
  rewrite firstn_all2.
  - apply sorted_reverse_perm.
  - rewrite (Permutation_length (sorted_reverse_perm _ _)), length_seq. exact Hnb.
Qed.

Lemma order_takes_every_index_when_all_are_best_witness :
  Permutation (ArsAgent.order short_hp (lift [1]) [NaN]) (seq 0 1).
Proof.
  apply (order_takes_every_index_when_all_are_best short_hp (lift [1]) [NaN] 1).
  - reflexivity.
  - reflexivity.
  - simpl; lia.
Defined.

(** X11. For counts that are natural numbers (num_deltas >= 0 and
    num_best_deltas >= 0), hyperparameters are accepted exactly when
    num_best_deltas <= num_deltas, and for accepted hyperparameters the
    update receives exactly num_best_deltas rollouts, built from distinct
    indices below num_deltas, whatever the rewards are. *)
Theorem accepted_hp_selects_num_best_deltas :
  forall (num_steps episode_length num_deltas num_best_deltas record_every : nat)
         (env_name : string) (seed : nat) (noise alpha : num)
         (pos neg : list num) (deltas : list matrix),
    List.length pos = num_deltas ->
    List.length neg = num_deltas ->
    match Hp.init num_steps episode_length num_deltas num_best_deltas record_every
                  env_name seed noise alpha with
    | None => (num_deltas < num_best_deltas)%nat
    | Some h =>
        (num_best_deltas <= num_deltas)%nat /\
        List.length (ArsAgent.rollouts h pos neg deltas) = num_best_deltas /\
        NoDup (ArsAgent.order h pos neg) /\
        Forall (fun k => (k < num_deltas)%nat) (ArsAgent.order h pos neg)
    end.
Proof.
  intros ns el nd nb re en sd nz al pos neg deltas Lp Ln.
  unfold Hp.init. destruct (Nat.leb_spec nb nd) as [Hle|Hgt]; [|exact Hgt].
  set (h := {| Hp.num_steps := ns; Hp.episode_length := el; Hp.num_deltas := nd;
               Hp.num_best_deltas := nb; Hp.record_every := re; Hp.env_name := en;
               Hp.seed := sd; Hp.noise := nz; Hp.alpha := al |}).
  assert (Lsc : List.length (ArsAgent.scores pos neg) = nd)
    by (unfold ArsAgent.scores; rewrite length_zipWith; lia).
  split; [exact Hle|]. split; [|split].
  - unfold ArsAgent.rollouts. rewrite length_map, length_order, Lsc. simpl. lia.
  - unfold ArsAgent.order.
    assert (Hnd : NoDup (sorted_reverse
                           (fun k => nth k (ArsAgent.scores pos neg) NaN)
                           (seq 0 (List.length (ArsAgent.scores pos neg))))).
    { apply (Permutation_NoDup (Permutation_sym (sorted_reverse_perm _ _))).
      apply seq_NoDup. }
    rewrite <- (firstn_skipn (Hp.num_best_deltas h)) in Hnd.
    now apply NoDup_app_remove_r in Hnd.
  - pose proof (order_in_range h pos neg) as Hr. now rewrite Lsc in Hr.
Qed.

Lemma accepted_hp_selects_num_best_deltas_witness :
  match Hp.init 1 3 2 1 100 "stub" 42 (Fin (3 # 100)) (Fin (2 # 100)) with
  | None => (2 < 1)%nat
  | Some h =>
      (1 <= 2)%nat /\
      List.length (ArsAgent.rollouts h (lift [1; 0]) (lift [0; 2]) []) = 1%nat /\
      NoDup (ArsAgent.order h (lift [1; 0]) (lift [0; 2])) /\
      Forall (fun k => (k < 2)%nat) (ArsAgent.order h (lift [1; 0]) (lift [0; 2]))
  end.
Proof.
  apply (accepted_hp_selects_num_best_deltas 1 3 2 1 100 "stub" 42
           (Fin (3 # 100)) (Fin (2 # 100)) (lift [1; 0]) (lift [0; 2]) []).
  - reflexivity.
  - reflexivity.
Defined.

(* ================================================================== *)
(** ** When sigma_rewards is zero *)

Lemma np_mean_lift (qs : list Q) :
  qs <> [] ->
  np_mean (lift qs) = Fin (fold_left Qplus qs 0 / inject_Z (Z.of_nat (List.length qs))).
Proof.
  intro Hne. unfold np_mean, fsum. rewrite fold_fadd_lift.
  unfold lift, of_nat. rewrite length_map. apply fdiv_Fin.
  pose proof (inject_nat_pos _ (nonempty_length qs Hne)). lra.
Qed.

Lemma Qsum_nonneg (l : list Q) : Forall (fun q => 0 <= q) l -> 0 <= Qsum l.
Proof.
  induction 1 as [|q l Hq _ IH]; simpl; lra.
Qed.

Lemma Qsum_zero_all_zero (l : list Q) :
  Forall (fun q => 0 <= q) l -> Qsum l == 0 -> Forall (fun q => q == 0) l.
Proof.
  induction 1 as [|q l Hq Hl IH]; simpl; intro Hs; constructor.
  - pose proof (Qsum_nonneg l Hl). lra.
  - apply IH. pose proof (Qsum_nonneg l Hl). lra.
Qed.

Lemma Qabs_square_zero (x : Q) : Qabs x * Qabs x == 0 -> x == 0.
Proof.
  intro Hx. apply Qmult_integral in Hx.
  assert (Ha : Qabs x == 0) by (destruct Hx; assumption).
  pose proof (Qle_Qabs x) as H1. pose proof (Qle_Qabs (- x)) as H2.
  rewrite Qabs_opp in H2. lra.
Qed.

(** X12. In exact arithmetic (no rounding, no underflow), for a non-empty
    list of finite rewards and a square root that is 0 at 0 and positive on
    positive numbers, the population standard deviation is a finite number,
    and it is 0 exactly when all rewards are identical. *)
Theorem sigma_rewards_zero_iff_identical :
  forall (sqrtQ : Q -> Q) (qs : list Q),
    (forall q, q == 0 -> sqrtQ q == 0) ->
    (forall q, 0 < q -> 0 < sqrtQ q) ->
    qs <> [] ->
    exists s : Q,
      np_std sqrtQ (lift qs) = Fin s /\
      (s == 0 <-> exists c, Forall (fun q => q == c) qs).
Proof.
  intros sqrtQ qs Hzero Hpos Hne.
  pose proof (inject_nat_pos _ (nonempty_length qs Hne)) as Hlen.
  unfold np_std. cbv zeta. rewrite (np_mean_lift qs Hne).
  set (m := fold_left Qplus qs 0 / inject_Z (Z.of_nat (List.length qs))).
  set (devs := map (fun q => Qabs (q + - m) * Qabs (q + - m)) qs).
  assert (Edev : map (fun x => fmul (fabs (fsub x (Fin m))) (fabs (fsub x (Fin m))))
                     (lift qs) = lift devs).
  { unfold devs, lift. rewrite !map_map. apply map_ext. intro q. reflexivity. }
  rewrite Edev.
  assert (Hdne : devs <> []) by (intro E0; apply map_eq_nil in E0; contradiction).
  rewrite (np_mean_lift devs Hdne).
  assert (Ldev : List.length devs = List.length qs) by (unfold devs; apply length_map).
  rewrite Ldev.
  assert (Hnonneg : Forall (fun q => 0 <= q) devs).
  { unfold devs. apply Forall_map, Forall_forall. intros q _.
    pose proof (Qabs_nonneg (q + - m)). nra. }
  set (v := fold_left Qplus devs 0 / inject_Z (Z.of_nat (List.length qs))).
  assert (Ev : v * inject_Z (Z.of_nat (List.length qs)) == Qsum devs).
  { unfold v. rewrite fold_Qplus_sum. field. lra. }
  assert (Hv : 0 <= v).
  { pose proof (Qsum_nonneg devs Hnonneg) as Hs. rewrite <- Ev in Hs.
    destruct (Qlt_le_dec v 0) as [Hneg|Hok]; [|exact Hok]. nra. }
  cbn [fsqrt].
  assert (Elt : Qltb v 0 = false) by (apply Qltb_false; exact Hv).
  rewrite Elt. exists (sqrtQ v). split; [reflexivity|]. split.
  - intro Hs.
    assert (Hv0 : v == 0).
    { destruct (Qlt_le_dec 0 v) as [Hgt|Hle]; [|lra].
      pose proof (Hpos v Hgt). lra. }
    exists m.
    assert (Hsum : Qsum devs == 0) by (rewrite <- Ev, Hv0; ring).
    pose proof (Qsum_zero_all_zero devs Hnonneg Hsum) as Hall.
    unfold devs in Hall. rewrite Forall_map in Hall.
    revert Hall. apply Forall_impl. intros q Hq.
    apply Qabs_square_zero in Hq. lra.
  - intros [c Hc].
    assert (Hsame : Forall (fun x => feq x (Fin c)) (lift qs)).
    { unfold lift. apply Forall_map. revert Hc. apply Forall_impl. intros q Hq. exact Hq. }
    assert (Hne' : lift qs <> []) by (intro E0; apply map_eq_nil in E0; contradiction).
    destruct (np_std_all_same sqrtQ c (lift qs) Hzero Hne' Hsame) as (s' & Es' & Hs').
    unfold np_std in Es'. cbv zeta in Es'.
    rewrite (np_mean_lift qs Hne) in Es'. fold m in Es'.
    rewrite Edev, (np_mean_lift devs Hdne), Ldev in Es'. fold v in Es'.
    cbn [fsqrt] in Es'. rewrite Elt in Es'. inversion Es'; subst s'. exact Hs'.
Qed.

Lemma sigma_rewards_zero_iff_identical_witness :
  exists s : Q,
    np_std Qsqrt_grid (lift [1; 1; 0; 2]) = Fin s /\
    (s == 0 <-> exists c, Forall (fun q => q == c) [1; 1; 0; 2]).
Proof.
  apply (sigma_rewards_zero_iff_identical Qsqrt_grid [1; 1; 0; 2]).
  - exact Qsqrt_grid_zero.
  - exact Qsqrt_grid_pos.
  - discriminate.
Defined.

(* ================================================================== *)
(** ** What training keeps *)

Lemma update_step_shape (r c : nat) (rl : list (num * num * matrix)) :
  forall step : matrix,
    has_shape r c step ->
    Forall (fun t => has_shape r c (snd t)) rl ->
    has_shape r c
      (fold_left (fun step '(r_pos, r_neg, delta) =>
                    mat_add step (mat_scale (fsub r_pos r_neg) delta)) rl step).
Proof.
  induction rl as [|[[rp rn] delta] rl IH]; intros step Hs Hrl; simpl.
  - exact Hs.
  - inversion Hrl; subst. apply IH; [|assumption].
    unfold mat_add, vadd. apply has_shape_zipWith; [exact Hs|].
    unfold mat_scale. now apply has_shape_map.
Qed.

Lemma update_shape (p : Policy.t) (rl : list (num * num * matrix)) (sigma : num)
    (r c : nat) :
  has_shape r c (Policy.theta p) ->
  Forall (fun t => has_shape r c (snd t)) rl ->
  has_shape r c (Policy.theta (Policy.update p rl sigma)).
Proof.
  intros Hth Hrl. unfold Policy.update, Policy.update_step; cbn [Policy.theta].
  unfold mat_add, vadd. apply has_shape_zipWith; [exact Hth|].
  unfold mat_scale. apply has_shape_map.
  apply update_step_shape; [|exact Hrl].
  rewrite (np_zeros2_shape r c) by assumption.
  unfold lift2, lift. apply has_shape_map, has_shape_repeat.
Qed.

Lemma rollouts_shape (h : Hp.t) (pos neg : list num) (deltas : list matrix)
    (nd r c : nat) :
  List.length pos = nd -> List.length neg = nd -> List.length deltas = nd ->
  Forall (has_shape r c) deltas ->
  Forall (fun t => has_shape r c (snd t)) (ArsAgent.rollouts h pos neg deltas).
Proof.
  intros Lp Ln Ld Hd. unfold ArsAgent.rollouts.
  apply Forall_map, Forall_forall. intros k Hk. cbn [snd].
  pose proof (order_in_range h pos neg) as Hr.
  rewrite Forall_forall in Hr, Hd. specialize (Hr k Hk).
  unfold ArsAgent.scores in Hr. rewrite length_zipWith in Hr.
  apply Hd, nth_In. lia.
Qed.

Section Training.

Context {E : Type} `{Environment E}.
Variable sqrtQ : Q -> Q.



End Training.





(* ================================================================== *)
(** ** Ties, collected rewards and construction *)

Lemma step_entry_app (rs ties : list (Q * Q * list (list Q))) (i j : nat) :
  Forall (fun t => fst (fst t) == snd (fst t)) ties ->
  step_entry (rs ++ ties) i j == step_entry rs i j.
Proof.
  intro Hties. unfold step_entry. rewrite map_app.
  induction rs as [|[[rp rn] D] rs IH]; simpl.
  - induction Hties as [|[[rp rn] D] ties Ht _ IH]; simpl; [reflexivity|].
    simpl in Ht. rewrite IH, Ht. ring.
  - rewrite IH. reflexivity.
Qed.

(** X15. A delta whose positive and negative rollouts returned the same
    reward has no influence on the update: adding such rollouts to the list
    (finite data of the weights' shape) leaves the resulting weights the
    same, for every sigma_rewards. *)
Theorem update_ignores_tied_rollouts :
  forall (p : Policy.t) (rs ties : list (Q * Q * list (list Q))) (sigma : num)
         (r c : nat),
    has_shape r c (Policy.theta p) ->
    Forall (fun t => has_shape r c (snd t)) rs ->
    Forall (fun t => has_shape r c (snd t)) ties ->
    Forall (fun t => fst (fst t) == snd (fst t)) ties ->
    mat_feq (Policy.theta (Policy.update p (lift_rollouts (rs ++ ties)) sigma))
            (Policy.theta (Policy.update p (lift_rollouts rs) sigma)).
Proof.
  intros p rs ties sigma r c Hth Hrs Hts Hties.
  assert (Hall : Forall (fun t => has_shape r c (snd t)) (rs ++ ties))
    by (apply Forall_app; split; assumption).
  destruct (update_theta_lifted p (rs ++ ties) sigma r c Hth Hall) as (B & HB & Hent & E).
  destruct (update_theta_lifted p rs sigma r c Hth Hrs) as (B' & HB' & Hent' & E').
  rewrite E, E'. apply scaled_add_feq.
  apply (Forall2_of_nth (Forall2 Qeq) [] []).
  - destruct HB, HB'. lia.
  - intros i Hi. assert (Hi' : (i < r)%nat) by (destruct HB; lia).
    apply (Forall2_of_nth Qeq 0 0).
    + now rewrite !(has_shape_row r c) by assumption.
    + intros j Hj. rewrite (has_shape_row r c) in Hj by assumption.
      rewrite (Hent i j Hi' Hj), (Hent' i j Hi' Hj). now apply step_entry_app.
Qed.

Lemma update_ignores_tied_rollouts_witness :
  let p := {| Policy.theta := lift2 [[1; 2]]; Policy.hp := example_hp |} in
  let rs := [(1, 0, [[1; 1]])] in
  let ties := [(2, 2, [[3; 0 - 1]])] in
  mat_feq (Policy.theta (Policy.update p (lift_rollouts (rs ++ ties)) (Fin 1)))
          (Policy.theta (Policy.update p (lift_rollouts rs) (Fin 1))).
Proof.
  apply (update_ignores_tied_rollouts
           {| Policy.theta := lift2 [[1; 2]]; Policy.hp := example_hp |}
           [(1, 0, [[1; 1]])] [(2, 2, [[3; 0 - 1]])] (Fin 1) 1 2).
  - split; [reflexivity|repeat constructor].
  - repeat constructor.
  - repeat constructor.
  - repeat constructor.
Defined.



Section Collected.

Context {E : Type} `{Environment E}.
Variable sqrtQ : Q -> Q.
Hypothesis Hfin : finite_rewards E.



End Collected.



(* ================================================================== *)
(** ** Zero weights and zero inputs *)

Lemma Qsum_zeros_l (x : list Q) (k : nat) :
  Qsum (zipWith Qmult (repeat 0 k) x) == 0.
Proof.
  revert x; induction k as [|k IH]; intros [|x0 x]; simpl; try reflexivity.
  rewrite IH. ring.
Qed.


Lemma lift_zero_rows (rows : list Q) (o : nat) :
  List.length rows = o ->
  Forall (fun q => q == 0) rows ->
  vec_feq (lift rows) (np_zeros o).
Proof.
  intros Lr Hz. subst o. unfold np_zeros.
  induction Hz as [|q rows Hq _ IH]; simpl; constructor; auto.
Qed.

(** X18. A policy that has not been updated (zero weights) returns the
    zero action for every finite input when no direction is given. *)
Theorem fresh_policy_returns_zero_action :
  forall (input_size output_size : nat) (h : Hp.t) (x : list Q) (delta : matrix),
    List.length x = input_size ->
    vec_feq (Policy.evaluate (Policy.init input_size output_size h) (lift x) delta None)
            (np_zeros output_size).
Proof.
  intros d o h x delta Lx.
  unfold Policy.evaluate, Policy.init; cbn [Policy.theta].
  assert (Ez : np_zeros2 (o, d) = lift2 (repeat (repeat 0 d) o)).
  { unfold np_zeros2, np_zeros, lift2, lift; cbn [fst snd].
    now rewrite !map_repeat. }
  rewrite Ez, mat_vec_lift. apply lift_zero_rows.
  - now rewrite length_map, repeat_length.
  - apply Forall_map, Forall_forall. intros row Hrow.
    apply repeat_spec in Hrow. subst row.
    unfold Qdot. rewrite fold_Qplus_sum, Qsum_zeros_l. ring.
Qed.

Lemma fresh_policy_returns_zero_action_witness :
  vec_feq (Policy.evaluate (Policy.init 3 2 example_hp) (lift [1; 2; 3]) [] None)
          (np_zeros 2).
Proof.
  apply (fresh_policy_returns_zero_action 3 2 example_hp [1; 2; 3] []).
  reflexivity.
Defined.



(* ================================================================== *)
(** ** The unguarded division by sigma_rewards *)

Lemma inf_of_not_finite (cmp : comparison) : ~ is_finite (inf_of cmp).
Proof. destruct cmp; simpl; tauto. Qed.

Lemma fdiv_zero_not_finite (x : num) (z : Q) :
  z == 0 -> ~ is_finite (fdiv x (Fin z)).
Proof.
  intro Hz. destruct x as [a| | |].
  - rewrite fdiv_Fin_zero by exact Hz. apply inf_of_not_finite.
  - unfold fdiv. apply inf_of_not_finite.
  - unfold fdiv. apply inf_of_not_finite.
  - simpl. tauto.
Qed.

Lemma fmul_not_finite (coef y : num) : ~ is_finite coef -> ~ is_finite (fmul coef y).
Proof.
  destruct coef as [a| | |]; intro Hc; [elim Hc; exact I| | |];
    destruct y; unfold fmul; try apply inf_of_not_finite; simpl; tauto.
Qed.

Lemma fadd_not_finite (t y : num) : ~ is_finite y -> ~ is_finite (fadd t y).
Proof.
  destruct y as [b| | |]; intro Hy; [elim Hy; exact I| | |];
    destruct t; simpl; tauto.
Qed.

Lemma matrix_not_finite (coef : num) (c : nat) :
  ~ is_finite coef ->
  forall (m step : matrix) (r : nat),
    has_shape r c m -> has_shape r c step ->
    Forall (Forall (fun w => ~ is_finite w)) (mat_add m (mat_scale coef step)).
Proof.
  intros Hc. unfold mat_add, mat_scale, vadd.
  induction m as [|row m IH]; intros [|srow step] r [Lm Hm] [Ls Hs];
    cbn [zipWith map]; try constructor.
  - inversion Hm as [|? ? Lrow _]; inversion Hs as [|? ? Lsrow _]; subst.
    clear - Hc. revert srow.
    induction row as [|t row IH]; intros [|y srow]; cbn [zipWith map]; constructor.
    + now apply fadd_not_finite, fmul_not_finite.
    + apply IH.
  - inversion Hm; inversion Hs; subst.
    apply (IH step (List.length m)); split; try reflexivity; try assumption.
    simpl in *. lia.
Qed.

(** C1, amended. The trainer has no test for sigma_rewards == 0.  In
    every training iteration in which the computed sigma_rewards is 0 (as it
    is when every rollout reward is 0), the update is applied all the same,
    divides alpha by zero, and every entry of the weight matrix is
    non-finite (inf or nan) after the iteration, instead of unchanged. *)
Theorem zero_sigma_poisons_weights :
  forall (E : Type) (H : Environment E) (sqrtQ : Q -> Q) (a : ArsAgent.t)
         (rs : RandomState) (history : list num) (r c : nat),
    has_shape r c (Policy.theta (ArsAgent.policy a)) ->
    Policy.hp (ArsAgent.policy a) = ArsAgent.hp a ->
    let deltas := fst (Policy.sample_deltas (ArsAgent.policy a) rs) in
    let pos := snd (fst (ArsAgent.collect sqrtQ a deltas)) in
    let neg := snd (ArsAgent.collect sqrtQ a deltas) in
    feq (ArsAgent.sigma_of sqrtQ pos neg) (Fin 0) ->
    let theta' :=
      Policy.theta (ArsAgent.policy
                      (fst (fst (ArsAgent.train_step sqrtQ (a, rs, history))))) in
    theta' = Policy.theta
               (Policy.update (ArsAgent.policy a)
                  (ArsAgent.rollouts (ArsAgent.hp a) pos neg deltas)
                  (ArsAgent.sigma_of sqrtQ pos neg)) /\
    has_shape r c theta' /\
    Forall (Forall (fun w => ~ is_finite w)) theta'.
Proof.
  intros E H sqrtQ a rs history r c Hth Hhp. cbv zeta.
  destruct (sample_deltas_lifted (ArsAgent.policy a) rs r c Hth) as (Ds & EDs & LDs & HDs).
  unfold ArsAgent.train_step.
  destruct (Policy.sample_deltas (ArsAgent.policy a) rs) as [deltas rs1].
  cbn [fst] in *. subst deltas.
  pose proof (collect_keeps_policy sqrtQ a (map lift2 Ds)) as Hcol. cbv zeta in Hcol.
  destruct (ArsAgent.collect sqrtQ a (map lift2 Ds)) as [[a1 pos] neg].
  cbn [fst snd] in *. destruct Hcol as (P1 & H1 & Lpos & Lneg).
  intro Hsigma.
  match goal with
  | |- context [ArsAgent.explore sqrtQ ?a2 None []] =>
      pose proof (explore_keeps_policy sqrtQ a2 None []) as [P3 _];
      destruct (ArsAgent.explore sqrtQ a2 None []) as [a3 rew]
  end.
  cbn [fst snd] in *. rewrite P3. cbn [ArsAgent.set_policy ArsAgent.policy].
  unfold ArsAgent.update_policy. rewrite P1, H1.
  assert (Hrol : Forall (fun t => has_shape r c (snd t))
                   (ArsAgent.rollouts (ArsAgent.hp a) pos neg (map lift2 Ds))).
  { apply (rollouts_shape _ pos neg _ (Hp.num_deltas (ArsAgent.hp a))); try assumption.
    - rewrite length_map, LDs, Hhp. reflexivity.
    - apply Forall_map. revert HDs. apply Forall_impl. intros M HM.
      unfold lift2, lift. now apply has_shape_map. }
  split; [reflexivity|]. split; [now apply update_shape|].
  destruct (ArsAgent.sigma_of sqrtQ pos neg) as [s| | |]; simpl in Hsigma;
    try contradiction.
  unfold Policy.update, Policy.update_step; cbn [Policy.theta].
  apply (matrix_not_finite _ c) with (r := r).
  - unfold of_nat; cbn [fmul]. apply fdiv_zero_not_finite. rewrite Hsigma. ring.
  - exact Hth.
  - apply update_step_shape; [|exact Hrol].
    rewrite (np_zeros2_shape r c) by assumption.
    unfold lift2, lift. apply has_shape_map, has_shape_repeat.
Qed.

Lemma zero_sigma_poisons_weights_witness :
  let a := ArsAgent.init example_hp stub_zero None None None None in
  let deltas := fst (Policy.sample_deltas (ArsAgent.policy a) example_stream) in
  let pos := snd (fst (ArsAgent.collect Qsqrt_grid a deltas)) in
  let neg := snd (ArsAgent.collect Qsqrt_grid a deltas) in
  let theta' :=
    Policy.theta (ArsAgent.policy
                    (fst (fst (ArsAgent.train_step Qsqrt_grid (a, example_stream, []))))) in
  theta' = Policy.theta
             (Policy.update (ArsAgent.policy a)
                (ArsAgent.rollouts (ArsAgent.hp a) pos neg deltas)
                (ArsAgent.sigma_of Qsqrt_grid pos neg)) /\
  has_shape 1 1 theta' /\
  Forall (Forall (fun w => ~ is_finite w)) theta'.
Proof.
  apply (zero_sigma_poisons_weights Stub Stub_Environment Qsqrt_grid
           (ArsAgent.init example_hp stub_zero None None None None)
           example_stream [] 1 1).
  - split; [reflexivity|repeat constructor].
  - reflexivity.
  - vm_compute. reflexivity.
Defined.
